(** * uploader.js: batch upload of a local directory to an S3 bucket

    A shallow embedding of [src/uploader.js].  The script is a Node.js
    program: synchronous code runs to completion, and an [async] function
    is suspended at each [await] until the awaited promise settles.  The
    embedding keeps that shape:

    - the outside world (environment variables, clock, file system, the S3
      client, the host's [path.join]) is a record of oracles, [world];
      a call that may throw, or a promise that may reject, answers with a
      [result], and what is thrown is an [Error] object ([js_error]);
    - everything the script does to the outside is appended to a trace of
      [event]s, each tagged with the task that performed it; [console.log]
      and [console.error] are one kind of event, and chalk's styling is
      left out;
    - [processFile] is cut at its two [await]s into [processFile],
      [after_headObject] and [after_upload]; its [try]/[catch] blocks
      catch whatever the two requests and [readFileSync] throw, so its
      promise is always fulfilled;
    - the dispatch loop of [uploadDirectory] is a small machine, [engine],
      with a step relation [step] and an executable scheduler [sched_step]
      whose argument picks which pending request settles next; every step
      of the relation is a step of some schedule ([sched_step_complete]),
      and every schedule reaches the end of the loop ([run_finishes]).

    The file has three parts: the embedding, the vocabulary of the
    statements with the invariant of the engine, and the properties. *)

From Stdlib Require Import List String Ascii Arith Bool Lia Permutation.
Import ListNotations.
Open Scope string_scope.
Open Scope nat_scope.
Open Scope list_scope.

Notation "a +++ b" := (String.append a b) (at level 60, right associativity).

(** ** JavaScript values *)

(** An [Error] object as the script inspects it: [err.code], [err.message]. *)
Record js_error := { code : option string; message : string }.

(** The result of a call that may throw, or of a promise that may reject. *)
Inductive result (A : Type) : Type :=
| Ok (a : A)
| Throw (e : js_error).
Arguments Ok {A} a.
Arguments Throw {A} e.

(** [!!v] for a value that is [undefined] or a string. *)
Definition truthy (v : option string) : bool :=
  match v with
  | Some (String _ _) => true
  | _ => false
  end.

(** [err.code === c] *)
Definition code_is (err : js_error) (c : string) : bool :=
  match code err with
  | Some c' => String.eqb c' c
  | None => false
  end.

(** [err.code || err.message] *)
Definition code_or_message (err : js_error) : string :=
  match code err with
  | Some c => if truthy (Some c) then c else message err
  | None => message err
  end.

(** [s.replace(/re/g, by)] for a regular expression that matches single
    characters: every character accepted by [hit] becomes [by]. *)
Fixpoint replace_chars (hit : ascii -> bool) (by_ : ascii) (s : string) : string :=
  match s with
  | EmptyString => EmptyString
  | String c r => String (if hit c then by_ else c) (replace_chars hit by_ r)
  end.

Definition chr (n : nat) : ascii := ascii_of_nat n.
Definition is_chr (n : nat) (c : ascii) : bool := Ascii.eqb c (chr n).

Definition backslash : ascii := chr 92.
Definition slash : ascii := chr 47.
Definition dquote : ascii := chr 34.
Definition newline : ascii := chr 10.

Fixpoint occurs (c : ascii) (s : string) : bool :=
  match s with
  | EmptyString => false
  | String d r => Ascii.eqb d c || occurs c r
  end.

(** ** JSON.stringify(value, null, 2) *)

Definition hex_digit (n : nat) : ascii :=
  if n <? 10 then chr (48 + n) else chr (87 + n).

(** One character of a JSON string literal (QuoteJSONString). *)
Definition json_escape (c : ascii) : string :=
  let n := nat_of_ascii c in
  let esc (d : ascii) := String backslash (String d EmptyString) in
  if n =? 34 then esc dquote
  else if n =? 92 then esc backslash
  else if n =? 8 then esc "b"%char
  else if n =? 9 then esc "t"%char
  else if n =? 10 then esc "n"%char
  else if n =? 12 then esc "f"%char
  else if n =? 13 then esc "r"%char
  else if n <? 32 then
    String backslash ("u00" +++ String (hex_digit (n / 16)) (String (hex_digit (n mod 16)) EmptyString))
  else String c EmptyString.

Fixpoint json_chars (s : string) : string :=
  match s with
  | EmptyString => EmptyString
  | String c r => json_escape c +++ json_chars r
  end.

Definition json_string (s : string) : string :=
  String dquote (json_chars s +++ String dquote EmptyString).

Definition nl : string := String newline EmptyString.

(** The elements of a non-empty array, one per line, each behind [indent]. *)
Fixpoint json_items (indent : string) (items : list string) : string :=
  match items with
  | [] => EmptyString
  | [x] => indent +++ x
  | x :: rest => indent +++ x +++ "," +++ nl +++ json_items indent rest
  end.

Definition json_array (items : list string) : string :=
  match items with
  | [] => "[]"
  | _ => "[" +++ nl +++ json_items "  " items +++ nl +++ "]"
  end.

(** [JSON.stringify(duplicatedFiles, null, 2)] *)
Definition stringify_names (names : list string) : string :=
  json_array (map json_string names).

(** An entry of [notUploadedFiles]: [{ file: fileName, error: message }]. *)
Record failure := { file : string; error : string }.

Definition json_failure (f : failure) : string :=
  "{" +++ nl +++
  "    " +++ json_string "file" +++ ": " +++ json_string (file f) +++ "," +++ nl +++
  "    " +++ json_string "error" +++ ": " +++ json_string (error f) +++ nl +++
  "  }".

(** [JSON.stringify(notUploadedFiles, null, 2)] *)
Definition stringify_failures (fs : list failure) : string :=
  json_array (map json_failure fs).

(** ** Node's [path.join]

    The host library, modelled from its documentation for two arguments:
    the non-empty arguments are joined with the host separator and the
    result is normalised ([.] and empty segments dropped, [..] resolved, a
    trailing separator kept).  With [sep = "/"] recognised alone this is
    [path.posix.join]; with [sep = "\"] and both separators recognised it
    is [path.win32.join] on arguments that carry no drive letter and no
    UNC prefix. *)
Module NodePath.

Fixpoint segments (is_sep : ascii -> bool) (s : string) : list string :=
  match s with
  | EmptyString => [EmptyString]
  | String c r =>
      if is_sep c then EmptyString :: segments is_sep r
      else match segments is_sep r with
           | seg :: rest => String c seg :: rest
           | [] => [String c EmptyString]
           end
  end.

(** One segment against the stack of kept segments (last one first). *)
Definition push_segment (allowAboveRoot : bool) (kept : list string) (seg : string)
  : list string :=
  if String.eqb seg EmptyString || String.eqb seg "." then kept
  else if String.eqb seg ".." then
    match kept with
    | last :: rest =>
        if String.eqb last ".." then (if allowAboveRoot then seg :: kept else kept)
        else rest
    | [] => if allowAboveRoot then [seg] else []
    end
  else seg :: kept.

Definition normalizeString (is_sep : ascii -> bool) (sep : ascii)
  (allowAboveRoot : bool) (p : string) : string :=
  String.concat (String sep EmptyString)
    (rev (fold_left (push_segment allowAboveRoot) (segments is_sep p) [])).

Definition first_is (is_sep : ascii -> bool) (p : string) : bool :=
  match p with
  | String c _ => is_sep c
  | EmptyString => false
  end.

Fixpoint last_is (is_sep : ascii -> bool) (p : string) : bool :=
  match p with
  | EmptyString => false
  | String c EmptyString => is_sep c
  | String _ r => last_is is_sep r
  end.

Definition normalize (is_sep : ascii -> bool) (sep : ascii) (p : string) : string :=
  match p with
  | EmptyString => "."
  | _ =>
      let isAbsolute := first_is is_sep p in
      let trailing := last_is is_sep p in
      let body := normalizeString is_sep sep (negb isAbsolute) p in
      let sep_s := String sep EmptyString in
      match body with
      | EmptyString =>
          if isAbsolute then sep_s else if trailing then "." +++ sep_s else "."
      | _ =>
          let body' := if trailing then body +++ sep_s else body in
          if isAbsolute then sep_s +++ body' else body'
      end
  end.

Definition join (is_sep : ascii -> bool) (sep : ascii) (a b : string) : string :=
  match a, b with
  | EmptyString, EmptyString => "."
  | EmptyString, _ => normalize is_sep sep b
  | _, EmptyString => normalize is_sep sep a
  | _, _ => normalize is_sep sep (a +++ String sep b)
  end.

Definition posix_join : string -> string -> string :=
  join (is_chr 47) slash.

Definition win32_join : string -> string -> string :=
  join (fun c => is_chr 47 c || is_chr 92 c) backslash.

End NodePath.

(** ** The outside world *)

Record world := {
  (** [process.env] *)
  env : string -> option string;
  (** [new Date().toISOString()] when [uploadDirectory] starts *)
  clock_iso : string;
  (** [path.join] of the host platform *)
  path_join : string -> string -> string;
  (** [fs.readdirSync(p)] *)
  readdirSync : string -> result (list string);
  (** [fs.statSync(p).isFile()] *)
  statSync_isFile : string -> result bool;
  (** [fs.readFileSync(p)] *)
  readFileSync : string -> result string;
  (** [fs.writeFileSync(name, content)] *)
  writeFileSync : string -> string -> result unit;
  (** [s3.headBucket({Bucket}).promise()] *)
  headBucket : string -> result unit;
  (** [s3.headObject({Bucket, Key}).promise()] *)
  headObject : string -> string -> result unit;
  (** [s3.upload({Bucket, Key, Body}).promise()] *)
  upload : string -> string -> string -> result unit
}.

(** ** Observable behaviour *)

(** Console lines of the [test] command (lines 32-102). *)
Inductive probe_line :=
| PRunning                       (* "Running AWS Configuration Test..." *)
| PChecking (bucket : string)    (* "Checking access to bucket: ..." *)
| PSuccess (bucket : string)     (* the four lines of a successful test *)
| PFailed                        (* the two header lines of a failed test *)
| PNoSuchBucket (bucket : string)
| PForbidden
| PInvalidAccessKeyId
| PSignatureDoesNotMatch
| PUnexpected (msg : string)
| PFullDetails (err : js_error). (* "Full error details:", error *)

(** Console lines ([console.log] and [console.error]; chalk styling left
    out), one constructor per call. *)
Inductive line :=
| LStarting                                   (* "Starting upload process..." *)
| LMissingCredentials                         (* "Error: Missing AWS credentials in .env file." *)
| LMissingCredentialsHint                     (* "Please create a .env file with ..." *)
| LLocalDirectory (p : string)                (* `Local directory: ${localPath}` *)
| LBucket (b : string)                        (* `S3 Bucket: ${bucketName}` *)
| LDestination (s : string)                   (* `S3 Destination Path: ${s3Path}` *)
| LFound (n : nat)                            (* `Found ${totalFiles} files to process.` *)
| LSkipped (f : string)                       (* `SKIPPED (duplicate): ${fileName}` *)
| LUploaded (f : string)                      (* `UPLOADED: ${fileName}` *)
| LErrorUploading (f msg : string)            (* `ERROR uploading ${fileName}:`, uploadError.message *)
| LErrorChecking (f : string) (err : js_error)(* `ERROR checking ${fileName}:`, err *)
| LProgress (n t : nat)                       (* `Progress: ${processedCount}/${totalFiles} files processed.` *)
| LFinished                                   (* "--- Upload Process Finished ---" *)
| LTotal (n : nat)                            (* `Total files found: ${totalFiles}` *)
| LUploadedCount (n : nat)                    (* `Successfully uploaded: ${uploadedCount}` *)
| LDuplicatesCount (n : nat)                  (* `Duplicates found: ${duplicatedFiles.length}` *)
| LFailedCount (n : nat)                      (* `Failed to upload: ${notUploadedFiles.length}` *)
| LDuplicateListSaved (name : string)         (* `Duplicate file list saved to: ${duplicatedLogFile}` *)
| LFailedListSaved (name : string)            (* `List of files that failed to upload saved to: ...` *)
| LUnexpected (msg : string)                  (* "An unexpected error occurred:", error.message *)
| LDirectoryNotFound (p : string)             (* `Error: The local directory "${localPath}" was not found.` *)
| LUsage                                      (* the lines of printUsage *)
| LRejected (msg : string)                    (* the script's .catch handler *)
| LProbe (l : probe_line).

Inductive event :=
| HeadObject (bucket key : string)     (* s3.headObject issued *)
| ReadFile (path : string)             (* fs.readFileSync called *)
| Upload (bucket key body : string)    (* s3.upload issued *)
| WriteFile (name content : string)    (* fs.writeFileSync called *)
| Console (l : line).

(** A trace entry: the task that performed the event ([Some i] for the
    call of [processFile] on the [i]-th file, [None] for the rest of the
    script) and the event. *)
Definition entry : Type := option nat * event.

Definition by_main (evs : list event) : list entry := map (pair None) evs.
Definition by_task (i : nat) (evs : list event) : list entry := map (pair (Some i)) evs.

(** ** Configuration *)

Definition CONCURRENT_UPLOADS : nat := 50.

(** [getAWSConfig]: [None] stands for the branch that calls
    [process.exit(1)]. *)
Definition getAWSConfig (w : world) : option (string * string * string) :=
  match env w "AWS_REGION", env w "AWS_ACCESS_KEY_ID", env w "AWS_SECRET_ACCESS_KEY" with
  | Some r, Some k, Some s =>
      if truthy (Some r) && truthy (Some k) && truthy (Some s)
      then Some (r, k, s) else None
  | _, _, _ => None
  end.

(** [new Date().toISOString().replace(/[:.]/g, "-")] *)
Definition timestamp (w : world) : string :=
  replace_chars (fun c => is_chr 58 c || is_chr 46 c) "-"%char (clock_iso w).

(** [x.replace(/\\/g, "/")] *)
Definition to_forward_slashes (s : string) : string :=
  replace_chars (is_chr 92) slash s.

(** The three buckets and the progress counter that [processFile] closes
    over. *)
Record store := {
  duplicatedFiles : list string;
  notUploadedFiles : list failure;
  uploadedCount : nat;
  processedCount : nat
}.

Definition empty_store : store :=
  {| duplicatedFiles := []; notUploadedFiles := []; uploadedCount := 0; processedCount := 0 |}.

Definition push_duplicate (f : string) (s : store) : store :=
  {| duplicatedFiles := duplicatedFiles s ++ [f];
     notUploadedFiles := notUploadedFiles s;
     uploadedCount := uploadedCount s;
     processedCount := processedCount s |}.

Definition push_failure (f msg : string) (s : store) : store :=
  {| duplicatedFiles := duplicatedFiles s;
     notUploadedFiles := notUploadedFiles s ++ [{| file := f; error := msg |}];
     uploadedCount := uploadedCount s;
     processedCount := processedCount s |}.

Definition count_upload (s : store) : store :=
  {| duplicatedFiles := duplicatedFiles s;
     notUploadedFiles := notUploadedFiles s;
     uploadedCount := S (uploadedCount s);
     processedCount := processedCount s |}.

Definition count_processed (s : store) : store :=
  {| duplicatedFiles := duplicatedFiles s;
     notUploadedFiles := notUploadedFiles s;
     uploadedCount := uploadedCount s;
     processedCount := S (processedCount s) |}.

(** ** The batch engine (lines 130-192) *)

(** Where a call of [processFile] is suspended. *)
Inductive phase :=
| AwaitHead                    (* at [await s3.headObject(...).promise()] *)
| AwaitUpload (body : string)  (* at [await s3.upload(...).promise()] *)
| Settled.                     (* returned: its promise is fulfilled *)

(** A promise in [queue]: the call of [processFile] on file number [tid]. *)
Record task := { tid : nat; fileName : string; at_ : phase }.

(** Where [uploadDirectory] itself stands. *)
Inductive control :=
| Looping      (* in the [for ... of] loop, between two iterations *)
| AwaitBatch   (* at [await Promise.all(queue)] inside the loop *)
| AwaitLast    (* at [await Promise.all(queue)] after the loop *)
| Finished.    (* past line 192 *)

Record engine := {
  pc : control;
  cursor : nat;          (* position of the [for ... of] iterator *)
  queue : list task;
  vars : store;
  out : list entry       (* everything done so far, oldest first *)
}.

Definition is_settled (t : task) : bool :=
  match at_ t with Settled => true | _ => false end.

(** Calls of [processFile] that have started and not yet returned. *)
Definition in_flight (q : list task) : nat :=
  List.length (filter (fun t => negb (is_settled t)) q).

Section Engine.

Variable w : world.
Variables localPath bucketName s3Path : string.
Variable filesToProcess : list string.
Variable limit : nat.

Definition totalFiles : nat := List.length filesToProcess.

Definition localFilePath (fileName : string) : string :=
  path_join w localPath fileName.

Definition s3Key (fileName : string) : string :=
  to_forward_slashes (path_join w s3Path fileName).

(** Lines 177-178, the tail of every path through [processFile]. *)
Definition progress (s : store) : store * list event :=
  let s' := count_processed s in
  (s', [Console (LProgress (processedCount s') totalFiles)]).

Definition settle (s : store) (evs : list event) : phase * store * list event :=
  let '(s', p) := progress s in (Settled, s', evs ++ p).

(** [processFile(fileName)] up to its first [await] (lines 136-141). *)
Definition processFile (i : nat) (fileName : string) : task * list event :=
  ({| tid := i; fileName := fileName; at_ := AwaitHead |},
   [HeadObject bucketName (s3Key fileName)]).

(** Lines 158-167: the [catch (uploadError)] block. *)
Definition upload_failed (fileName : string) (uploadError : js_error) (s : store)
  : store * list event :=
  (push_failure fileName (message uploadError) s,
   [Console (LErrorUploading fileName (message uploadError))]).

(** [processFile] from the settling of [headObject] to its next [await]
    or to its end (lines 142-178). *)
Definition after_headObject (fileName : string) (s : store)
  : phase * store * list event :=
  match headObject w bucketName (s3Key fileName) with
  | Ok _ =>
      settle (push_duplicate fileName s) [Console (LSkipped fileName)]
  | Throw err =>
      if code_is err "NotFound" then
        match readFileSync w (localFilePath fileName) with
        | Ok fileContent =>
            (AwaitUpload fileContent, s,
             [ReadFile (localFilePath fileName);
              Upload bucketName (s3Key fileName) fileContent])
        | Throw uploadError =>
            let '(s', evs) := upload_failed fileName uploadError s in
            settle s' (ReadFile (localFilePath fileName) :: evs)
        end
      else
        settle
          (push_failure fileName
             ("Failed to check S3 status: " +++ code_or_message err) s)
          [Console (LErrorChecking fileName err)]
  end.

(** [processFile] from the settling of [upload] to its end
    (lines 156-178). *)
Definition after_upload (fileName fileContent : string) (s : store)
  : phase * store * list event :=
  match upload w bucketName (s3Key fileName) fileContent with
  | Ok _ => settle (count_upload s) [Console (LUploaded fileName)]
  | Throw uploadError =>
      let '(s', evs) := upload_failed fileName uploadError s in
      settle s' evs
  end.

(** A suspended task is resumed when the promise it awaits settles. *)
Definition resume (t : task) (s : store) : task * store * list event :=
  let '(ph, s', evs) :=
    match at_ t with
    | AwaitHead => after_headObject (fileName t) s
    | AwaitUpload body => after_upload (fileName t) body s
    | Settled => (Settled, s, [])
    end in
  ({| tid := tid t; fileName := fileName t; at_ := ph |}, s', evs).

Definition start : engine :=
  {| pc := Looping; cursor := 0; queue := []; vars := empty_store; out := [] |}.

(** One turn of the event loop.  While [uploadDirectory] runs
    synchronously ([Looping]) nothing else can run; while it awaits
    [Promise.all(queue)], any unsettled task of the queue may be resumed,
    and [uploadDirectory] itself continues once all of them have
    settled. *)
Inductive step : engine -> engine -> Prop :=
| step_dispatch e fileName t evs :
    pc e = Looping ->
    nth_error filesToProcess (cursor e) = Some fileName ->
    processFile (cursor e) fileName = (t, evs) ->
    step e {| pc := if limit <=? List.length (queue e ++ [t]) then AwaitBatch else Looping;
              cursor := S (cursor e);
              queue := queue e ++ [t];
              vars := vars e;
              out := out e ++ by_task (cursor e) evs |}
| step_loop_end e :
    pc e = Looping ->
    nth_error filesToProcess (cursor e) = None ->
    step e {| pc := AwaitLast; cursor := cursor e; queue := queue e;
              vars := vars e; out := out e |}
| step_resume e q1 t q2 t' s' evs :
    pc e = AwaitBatch \/ pc e = AwaitLast ->
    queue e = q1 ++ t :: q2 ->
    is_settled t = false ->
    resume t (vars e) = (t', s', evs) ->
    step e {| pc := pc e; cursor := cursor e; queue := q1 ++ t' :: q2;
              vars := s'; out := out e ++ by_task (tid t) evs |}
| step_batch_done e :
    pc e = AwaitBatch ->
    in_flight (queue e) = 0 ->
    step e {| pc := Looping; cursor := cursor e; queue := [];
              vars := vars e; out := out e |}
| step_last_done e :
    pc e = AwaitLast ->
    in_flight (queue e) = 0 ->
    step e {| pc := Finished; cursor := cursor e; queue := queue e;
              vars := vars e; out := out e |}.

(** The states that the event loop can reach. *)
Inductive reachable : engine -> Prop :=
| reach_start : reachable start
| reach_step e e' : reachable e -> step e e' -> reachable e'.

(** Resume the [k]-th unsettled task of the queue. *)
Fixpoint resume_nth (k : nat) (q : list task) (s : store)
  : list task * store * list entry :=
  match q with
  | [] => ([], s, [])
  | t :: q' =>
      if is_settled t then
        let '(q'', s', evs) := resume_nth k q' s in (t :: q'', s', evs)
      else
        match k with
        | 0 => let '(t', s', evs) := resume t s in
               (t' :: q', s', by_task (tid t) evs)
        | S k' => let '(q'', s', evs) := resume_nth k' q' s in (t :: q'', s', evs)
        end
  end.

Definition await_all (choice : nat) (e : engine) (next : engine) : engine :=
  match in_flight (queue e) with
  | 0 => next
  | S m =>
      let '(q, s, evs) := resume_nth (choice mod S m) (queue e) (vars e) in
      {| pc := pc e; cursor := cursor e; queue := q; vars := s; out := out e ++ evs |}
  end.

(** The step taken when the network answers in the order given by
    [choice]. *)
Definition sched_step (choice : nat) (e : engine) : engine :=
  match pc e with
  | Looping =>
      match nth_error filesToProcess (cursor e) with
      | Some fileName =>
          let '(t, evs) := processFile (cursor e) fileName in
          {| pc := if limit <=? List.length (queue e ++ [t]) then AwaitBatch else Looping;
             cursor := S (cursor e);
             queue := queue e ++ [t];
             vars := vars e;
             out := out e ++ by_task (cursor e) evs |}
      | None =>
          {| pc := AwaitLast; cursor := cursor e; queue := queue e;
             vars := vars e; out := out e |}
      end
  | AwaitBatch =>
      await_all choice e
        {| pc := Looping; cursor := cursor e; queue := [];
           vars := vars e; out := out e |}
  | AwaitLast =>
      await_all choice e
        {| pc := Finished; cursor := cursor e; queue := queue e;
           vars := vars e; out := out e |}
  | Finished => e
  end.

(** The engine after [n] turns under the schedule [sched]. *)
Fixpoint run (sched : nat -> nat) (n : nat) : engine :=
  match n with
  | 0 => start
  | S m => sched_step (sched m) (run sched m)
  end.

(** Enough turns for any schedule (see [run_finishes]). *)
Definition turns : nat := 4 * totalFiles + 2.

Definition run_all (sched : nat -> nat) : engine := run sched turns.

End Engine.

(** ** [uploadDirectory] (lines 106-234) *)

(** What a call of one of the script's two commands leaves behind:
    [exited = Some c] when it called [process.exit(c)], the trace of what
    it did, and the final value of the buckets. *)
Record run_result := {
  exited : option nat;
  trace : list entry;
  buckets : store
}.

(** [allFiles.filter(file => fs.statSync(path.join(localPath, file)).isFile())]:
    the first [statSync] that throws ends the scan. *)
Fixpoint filter_files (w : world) (localPath : string) (allFiles : list string)
  : result (list string) :=
  match allFiles with
  | [] => Ok []
  | file :: rest =>
      match statSync_isFile w (path_join w localPath file) with
      | Throw err => Throw err
      | Ok isFile =>
          match filter_files w localPath rest with
          | Throw err => Throw err
          | Ok kept => Ok (if isFile then file :: kept else kept)
          end
      end
  end.

(** Lines 124-128. *)
Definition scan (w : world) (localPath : string) : result (list string) :=
  match readdirSync w localPath with
  | Throw err => Throw err
  | Ok allFiles => filter_files w localPath allFiles
  end.

(** The outer [catch (error)] block (lines 226-233). *)
Definition catch_block (localPath : string) (err : js_error) : list event :=
  Console (LUnexpected (message err)) ::
  (if code_is err "ENOENT" then [Console (LDirectoryNotFound localPath)] else []).

(** Lines 194-200. *)
Definition summary (total : nat) (s : store) : list event :=
  [Console LFinished;
   Console (LTotal total);
   Console (LUploadedCount (uploadedCount s));
   Console (LDuplicatesCount (List.length (duplicatedFiles s)));
   Console (LFailedCount (List.length (notUploadedFiles s)))].

Definition duplicatedLogFile (ts : string) : string := "duplicated_" +++ ts +++ ".json".
Definition notUploadedLogFile (ts : string) : string := "not_uploaded_files_" +++ ts +++ ".json".

(** One [fs.writeFileSync] followed by its console line; the second
    component is the error thrown, if any. *)
Definition write_report (w : world) (name content : string) (saved : line)
  : list event * option js_error :=
  match writeFileSync w name content with
  | Ok _ => ([WriteFile name content; Console saved], None)
  | Throw err => ([WriteFile name content], Some err)
  end.

(** Lines 203-225. *)
Definition write_reports (w : world) (ts : string) (s : store)
  : list event * option js_error :=
  let '(evs1, thrown1) :=
    match duplicatedFiles s with
    | [] => ([], None)
    | _ => write_report w (duplicatedLogFile ts) (stringify_names (duplicatedFiles s))
             (LDuplicateListSaved (duplicatedLogFile ts))
    end in
  match thrown1 with
  | Some err => (evs1, Some err)
  | None =>
      match notUploadedFiles s with
      | [] => (evs1, None)
      | _ =>
          let '(evs2, thrown2) :=
            write_report w (notUploadedLogFile ts) (stringify_failures (notUploadedFiles s))
              (LFailedListSaved (notUploadedLogFile ts)) in
          (evs1 ++ evs2, thrown2)
      end
  end.

Definition uploadDirectory (w : world) (sched : nat -> nat)
  (localPath bucketName s3Path : string) : run_result :=
  let banner := [Console LStarting] in
  match getAWSConfig w with
  | None =>
      {| exited := Some 1;
         trace := by_main (banner ++
                    [Console LMissingCredentials; Console LMissingCredentialsHint]);
         buckets := empty_store |}
  | Some _ =>
      let header := banner ++
        [Console (LLocalDirectory localPath);
         Console (LBucket bucketName);
         Console (LDestination s3Path)] in
      let ts := timestamp w in
      match scan w localPath with
      | Throw err =>
          {| exited := None;
             trace := by_main (header ++ catch_block localPath err);
             buckets := empty_store |}
      | Ok filesToProcess =>
          let e := run_all w localPath bucketName s3Path filesToProcess
                     CONCURRENT_UPLOADS sched in
          let '(written, thrown) := write_reports w ts (vars e) in
          {| exited := None;
             trace :=
               by_main (header ++ [Console (LFound (List.length filesToProcess))])
               ++ out e
               ++ by_main (summary (List.length filesToProcess) (vars e) ++ written ++
                           match thrown with
                           | Some err => catch_block localPath err
                           | None => []
                           end);
             buckets := vars e |}
      end
  end.

(** ** [testAWSConfiguration] (lines 31-104)

    [config] is declared inside the [try] block, so the [NetworkingError]
    case of the [catch] block, which reads [config.region], throws a
    [ReferenceError]; the promise of the function rejects and the
    [.catch] of the script prints it. *)
Definition testAWSConfiguration (w : world) (bucketName : string) : run_result :=
  let banner := [Console (LProbe PRunning)] in
  match getAWSConfig w with
  | None =>
      {| exited := Some 1;
         trace := by_main (banner ++
                    [Console LMissingCredentials; Console LMissingCredentialsHint]);
         buckets := empty_store |}
  | Some _ =>
      let tried := banner ++ [Console (LProbe (PChecking bucketName))] in
      let said (ls : list probe_line) := map (fun l => Console (LProbe l)) ls in
      let caught (err : js_error) (ls : list probe_line) :=
        said (PFailed :: ls ++ [PFullDetails err]) in
      {| exited := None;
         trace := by_main (tried ++
           match headBucket w bucketName with
           | Ok _ => said [PSuccess bucketName]
           | Throw err =>
               if code_is err "NoSuchBucket" then caught err [PNoSuchBucket bucketName]
               else if code_is err "Forbidden" then caught err [PForbidden]
               else if code_is err "InvalidAccessKeyId" then caught err [PInvalidAccessKeyId]
               else if code_is err "SignatureDoesNotMatch" then caught err [PSignatureDoesNotMatch]
               else if code_is err "NetworkingError" then
                 said [PFailed] ++ [Console (LRejected "ReferenceError: config is not defined")]
               else caught err [PUnexpected (message err)]
           end);
         buckets := empty_store |}
  end.

(** ** Script execution (lines 237-274)

    [args] is [process.argv.slice(2)].  The exit code of the process is the
    argument of [process.exit] when it was called, and 0 otherwise: both
    commands end with a [.catch], so no rejection is left unhandled. *)
Definition usage_error : run_result :=
  {| exited := Some 1; trace := by_main [Console LUsage]; buckets := empty_store |}.

Definition main (w : world) (sched : nat -> nat) (args : list string) : run_result :=
  match args with
  | command :: _ =>
      if String.eqb command "test" then
        match args with
        | [_; bucket] => testAWSConfiguration w bucket
        | _ => usage_error
        end
      else if String.eqb command "upload" then
        match args with
        | [_; localDirectory; bucket; s3Folder] =>
            uploadDirectory w sched localDirectory bucket s3Folder
        | _ => usage_error
        end
      else usage_error
  | [] => usage_error
  end.

Definition exit_code (r : run_result) : nat :=
  match exited r with
  | Some c => c
  | None => 0
  end.

(** ** A concrete host

    A small POSIX host to run the script on: a file tree, a bucket given
    by the keys it holds and the keys it refuses to write, and Node's
    error codes for the file-system calls ([ENOENT] for a missing path,
    [ENOTDIR] for [readdirSync] on a regular file, [EISDIR] for
    [readFileSync] on a directory). *)
Module Host.

Inductive inode :=
| Regular (content : string)
| Folder (entries : list string).

Definition tree : Type := string -> option inode.

Definition errno (c : string) (what : string) (p : string) : js_error :=
  {| code := Some c; message := c +++ ": " +++ what +++ " '" +++ p +++ "'" |}.

Definition s3_error (c : string) : js_error :=
  {| code := Some c; message := c |}.

Definition mem (k : string) (l : list string) : bool :=
  existsb (String.eqb k) l.

Definition posix (t : tree) (remote denied : list string) (iso : string) : world :=
  {| env := fun _ => Some "set";
     clock_iso := iso;
     path_join := NodePath.posix_join;
     readdirSync := fun p =>
       match t p with
       | None => Throw (errno "ENOENT" "no such file or directory, scandir" p)
       | Some (Regular _) => Throw (errno "ENOTDIR" "not a directory, scandir" p)
       | Some (Folder entries) => Ok entries
       end;
     statSync_isFile := fun p =>
       match t p with
       | None => Throw (errno "ENOENT" "no such file or directory, stat" p)
       | Some (Regular _) => Ok true
       | Some (Folder _) => Ok false
       end;
     readFileSync := fun p =>
       match t p with
       | None => Throw (errno "ENOENT" "no such file or directory, open" p)
       | Some (Regular content) => Ok content
       | Some (Folder _) => Throw (errno "EISDIR" "illegal operation on a directory, read" p)
       end;
     writeFileSync := fun _ _ => Ok tt;
     headBucket := fun _ => Ok tt;
     headObject := fun _ key =>
       if mem key remote then Ok tt else Throw (s3_error "NotFound");
     upload := fun _ key _ =>
       if mem key denied then Throw (s3_error "AccessDenied") else Ok tt |}.

(** [/x/y] holds [a.txt], [b.txt], [c.txt] and a subdirectory [sub];
    [/x/file] is a regular file; [/x/empty] and [/x/dirs] hold no
    regular file. *)
Definition demo_tree : tree := fun p =>
  if String.eqb p "/x/y" then Some (Folder ["a.txt"; "b.txt"; "sub"; "c.txt"])
  else if String.eqb p "/x/y/a.txt" then Some (Regular "AAA")
  else if String.eqb p "/x/y/b.txt" then Some (Regular "BBB")
  else if String.eqb p "/x/y/c.txt" then Some (Regular "CCC")
  else if String.eqb p "/x/y/sub" then Some (Folder [])
  else if String.eqb p "/x/file" then Some (Regular "data")
  else if String.eqb p "/x/empty" then Some (Folder [])
  else if String.eqb p "/x/dirs" then Some (Folder ["d1"; "d2"])
  else if String.eqb p "/x/dirs/d1" then Some (Folder [])
  else if String.eqb p "/x/dirs/d2" then Some (Folder ["inner.txt"])
  else None.

Definition demo_iso : string := "2024-05-06T07:08:09.123Z".

(** [photos/b.txt] is already in the bucket; writing [photos/c.txt] is
    refused. *)
Definition demo : world :=
  posix demo_tree ["photos/b.txt"] ["photos/c.txt"] demo_iso.

(** The same host without credentials in the environment. *)
Definition demo_no_credentials : world :=
  {| env := fun _ => None;
     clock_iso := clock_iso demo;
     path_join := path_join demo;
     readdirSync := readdirSync demo;
     statSync_isFile := statSync_isFile demo;
     readFileSync := readFileSync demo;
     writeFileSync := writeFileSync demo;
     headBucket := headBucket demo;
     headObject := headObject demo;
     upload := upload demo |}.

(** Requests answered in the order they were issued. *)
Definition fifo : nat -> nat := fun _ => 0.

(** Requests answered out of order: at each turn the unsettled task
    number [49 mod k] of the [k] in flight. *)
Definition shuffled : nat -> nat := fun _ => 49.

End Host.

(** ** Reading a trace *)

Definition performed_by (i : nat) (x : entry) : bool :=
  match fst x with
  | Some j => j =? i
  | None => false
  end.

(** What task [i] did, in order. *)
Definition events_of (i : nat) (tr : list entry) : list event :=
  map snd (filter (performed_by i) tr).

Definition completion (x : entry) : list nat :=
  match x with
  | (Some i, Console (LProgress _ _)) => [i]
  | _ => []
  end.

(** The tasks that have printed their progress line, in the order in which
    they did: the completion order. *)
Definition finished (tr : list entry) : list nat := flat_map completion tr.

Definition progress_line (x : entry) : list line :=
  match snd x with
  | Console (LProgress n t) => [LProgress n t]
  | _ => []
  end.

(** The progress lines of a trace, in order. *)
Definition progress_lines (tr : list entry) : list line := flat_map progress_line tr.

Definition is_write (ev : event) : bool :=
  match ev with WriteFile _ _ => true | _ => false end.

Definition is_request (ev : event) : bool :=
  match ev with HeadObject _ _ | Upload _ _ _ => true | _ => false end.

(** The report files written, in order. *)
Definition writes (tr : list entry) : list event := filter is_write (map snd tr).

(** The requests sent to the bucket, in order. *)
Definition requests (tr : list entry) : list event := filter is_request (map snd tr).

(** ** The outcome of one task, read off the oracles

    [verdict_of] and [script] say, in one piece, what the three pieces of
    [processFile] do to a file when they are run one after the other; the
    engine is proved to agree with them ([resume_spec]). *)

Inductive verdict :=
| Uploaded
| Duplicate
| Failed (errorMessage : string).

Section Outcome.

Variable w : world.
Variables localPath bucketName s3Path : string.
Variable filesToProcess : list string.

Definition verdict_of (fileName : string) : verdict :=
  match headObject w bucketName (s3Key w s3Path fileName) with
  | Ok _ => Duplicate
  | Throw err =>
      if code_is err "NotFound" then
        match readFileSync w (localFilePath w localPath fileName) with
        | Ok body =>
            match upload w bucketName (s3Key w s3Path fileName) body with
            | Ok _ => Uploaded
            | Throw uploadError => Failed (message uploadError)
            end
        | Throw uploadError => Failed (message uploadError)
        end
      else Failed ("Failed to check S3 status: " +++ code_or_message err)
  end.

(** Everything a complete call of [processFile] does, but for its
    progress line. *)
Definition script (fileName : string) : list event :=
  HeadObject bucketName (s3Key w s3Path fileName) ::
  match headObject w bucketName (s3Key w s3Path fileName) with
  | Ok _ => [Console (LSkipped fileName)]
  | Throw err =>
      if code_is err "NotFound" then
        ReadFile (localFilePath w localPath fileName) ::
        match readFileSync w (localFilePath w localPath fileName) with
        | Ok body =>
            [Upload bucketName (s3Key w s3Path fileName) body;
             match upload w bucketName (s3Key w s3Path fileName) body with
             | Ok _ => Console (LUploaded fileName)
             | Throw uploadError =>
                 Console (LErrorUploading fileName (message uploadError))
             end]
        | Throw uploadError =>
            [Console (LErrorUploading fileName (message uploadError))]
        end
      else [Console (LErrorChecking fileName err)]
  end.

(** What a task suspended at [ph] has done so far. *)
Definition so_far (fileName : string) (ph : phase) : list event :=
  match ph with
  | AwaitHead => [HeadObject bucketName (s3Key w s3Path fileName)]
  | AwaitUpload body =>
      [HeadObject bucketName (s3Key w s3Path fileName);
       ReadFile (localFilePath w localPath fileName);
       Upload bucketName (s3Key w s3Path fileName) body]
  | Settled => script fileName
  end.

(** A task can only wait for an upload of the bytes it has read, after a
    [NotFound] answer. *)
Definition consistent (fileName : string) (ph : phase) : Prop :=
  match ph with
  | AwaitUpload body =>
      (exists err, headObject w bucketName (s3Key w s3Path fileName) = Throw err
                   /\ code_is err "NotFound" = true)
      /\ readFileSync w (localFilePath w localPath fileName) = Ok body
  | _ => True
  end.

Definition record_verdict (fileName : string) (v : verdict) (s : store) : store :=
  count_processed
    match v with
    | Duplicate => push_duplicate fileName s
    | Uploaded => count_upload s
    | Failed msg => push_failure fileName msg s
    end.

(** The name of file number [j]. *)
Definition name (j : nat) : string := nth j filesToProcess EmptyString.

(** The buckets after the tasks of [order] have completed in that order. *)
Definition tally (order : list nat) : store :=
  fold_left (fun s j => record_verdict (name j) (verdict_of (name j)) s) order empty_store.

Definition is_uploaded (j : nat) : bool :=
  match verdict_of (name j) with Uploaded => true | _ => false end.

Definition is_duplicate (j : nat) : bool :=
  match verdict_of (name j) with Duplicate => true | _ => false end.

Definition is_failed (j : nat) : bool :=
  match verdict_of (name j) with Failed _ => true | _ => false end.

Definition failure_of (j : nat) : failure :=
  {| file := name j;
     error := match verdict_of (name j) with Failed msg => msg | _ => EmptyString end |}.

End Outcome.

(** ** The vocabulary of the statements *)

(** The lines printed before the scan (lines 107-116). *)
Definition announced (localPath bucketName s3Path : string) : list event :=
  [Console LStarting;
   Console (LLocalDirectory localPath);
   Console (LBucket bucketName);
   Console (LDestination s3Path)].

(** What follows the summary: the report files, and the outer [catch]
    block if writing one of them throws. *)
Definition reported (w : world) (localPath : string) (s : store) : list event :=
  fst (write_reports w (timestamp w) s) ++
  match snd (write_reports w (timestamp w) s) with
  | Some err => catch_block localPath err
  | None => []
  end.






(** The whole trace of a run that finds no file to process. *)
Definition idle_trace (localPath bucketName s3Path : string) : list entry :=
  by_main (announced localPath bucketName s3Path
           ++ [Console (LFound 0)]
           ++ summary 0 empty_store).

(** A progress line whose count is [total]. *)
Definition reaches (total : nat) (l : line) : bool :=
  match l with
  | LProgress n _ => n =? total
  | _ => false
  end.




(** The events of [processFile], as opposed to those of the rest of
    [uploadDirectory]. *)
Definition task_event (ev : event) : bool :=
  match ev with
  | WriteFile _ _ => false
  | Console (LProgress _ _) => true
  | Console (LSkipped _) | Console (LUploaded _) => true
  | Console (LErrorUploading _ _) | Console (LErrorChecking _ _) => true
  | Console _ => false
  | _ => true
  end.

(** An entry made by a task: tagged with a file number below [bound], and
    one of the events of [processFile]. *)
Definition task_entry (bound : nat) (x : entry) : Prop :=
  (exists i, fst x = Some i /\ i < bound) /\ task_event (snd x) = true.

Fixpoint has_char (p : ascii -> bool) (s : string) : bool :=
  match s with
  | EmptyString => false
  | String c r => p c || has_char p r
  end.

Definition is_separator (c : ascii) : bool := is_chr 47 c || is_chr 92 c.

(** A single path segment on every host: not empty, not [.] or [..], and
    free of [/] and [\]. *)
Definition plain (s : string) : bool :=
  negb (String.eqb s EmptyString) && negb (String.eqb s ".")
  && negb (String.eqb s "..") && negb (has_char is_separator s).

(** The same host with Node's win32 [path.join]. *)
Definition on_win32 (w : world) : world :=
  {| env := env w;
     clock_iso := clock_iso w;
     path_join := NodePath.win32_join;
     readdirSync := readdirSync w;
     statSync_isFile := statSync_isFile w;
     readFileSync := readFileSync w;
     writeFileSync := writeFileSync w;
     headBucket := headBucket w;
     headObject := headObject w;
     upload := upload w |}.

(** ** The invariant of the engine *)

(** How far a suspended task is from its end. *)
Definition weight (ph : phase) : nat :=
  match ph with
  | AwaitHead => 2
  | AwaitUpload _ => 1
  | Settled => 0
  end.

Section Invariant.

Variable w : world.
Variables localPath bucketName s3Path : string.
Variable files : list string.
Variable limit : nat.

(** A bound on the number of steps still to take. *)
Definition pending_work (e : engine) : nat :=
  4 * (totalFiles files - cursor e)
  + list_sum (map (fun t => weight (at_ t)) (queue e))
  + match pc e with Looping => 2 | AwaitBatch => 3 | AwaitLast => 1 | Finished => 0 end.

(** The state of a queued task against the trace. *)
Definition task_ok (tr : list entry) (t : task) : Prop :=
  consistent w localPath bucketName s3Path (fileName t) (at_ t) /\
  if is_settled t then In (tid t) (finished tr)
  else ~ In (tid t) (finished tr)
       /\ events_of (tid t) tr
          = so_far w localPath bucketName s3Path (fileName t) (at_ t).

Record inv (e : engine) : Prop := {
  (* the queue holds consecutive files, from a multiple of [limit] on *)
  inv_base : exists k, cursor e = k * limit + List.length (queue e)
                       /\ map tid (queue e) = seq (k * limit) (List.length (queue e));
  inv_names : Forall (fun t => nth_error files (tid t) = Some (fileName t)) (queue e);
  inv_cursor : cursor e <= totalFiles files;
  inv_len : List.length (queue e) <= limit;
  inv_pc : match pc e with
           | Looping => List.length (queue e) < limit
                        /\ Forall (fun t => at_ t = AwaitHead) (queue e)
           | AwaitBatch => List.length (queue e) = limit
           | AwaitLast => cursor e = totalFiles files
           | Finished => cursor e = totalFiles files /\ in_flight (queue e) = 0
           end;
  (* the buckets are those of the completed tasks, in completion order *)
  inv_store : vars e = tally w localPath bucketName s3Path files (finished (out e));
  (* a file behind the cursor has not been touched *)
  inv_fresh : forall i, cursor e <= i -> events_of i (out e) = [];
  inv_queue : Forall (task_ok (out e)) (queue e);
  (* a completed task has run its whole script, once *)
  inv_done : forall j, In j (finished (out e)) ->
               j < cursor e /\
               exists n, events_of j (out e)
                         = script w localPath bucketName s3Path (name files j)
                           ++ [Console (LProgress n (totalFiles files))];
  (* the tasks of the earlier batches have completed *)
  inv_past : forall j, j + List.length (queue e) < cursor e -> In j (finished (out e));
  inv_nodup : NoDup (finished (out e));
  inv_progress : progress_lines (out e)
                 = map (fun k => LProgress k (totalFiles files))
                     (seq 1 (List.length (finished (out e))))
}.

End Invariant.

(** ** More vocabulary: the rest of the script *)

(** The three variables that [getAWSConfig] reads. *)
Definition credential_names : list string :=
  ["AWS_REGION"; "AWS_ACCESS_KEY_ID"; "AWS_SECRET_ACCESS_KEY"].

(** The invocations that the script accepts: [test <bucket_name>] and
    [upload <local_path> <bucket_name> <s3_folder>] (lines 254-273). *)
Definition valid_invocation (args : list string) : bool :=
  match args with
  | [command; _] => String.eqb command "test"
  | [command; _; _; _] => String.eqb command "upload"
  | _ => false
  end.

(** [fs.statSync(path.join(localPath, file)).isFile()] returned [true]. *)
Definition is_regular (w : world) (localPath file : string) : bool :=
  match statSync_isFile w (path_join w localPath file) with
  | Ok true => true
  | _ => false
  end.

(** [fs.statSync(path.join(localPath, file))] did not throw. *)
Definition stat_succeeds (w : world) (localPath file : string) : Prop :=
  exists isFile, statSync_isFile w (path_join w localPath file) = Ok isFile.

Definition is_head (ev : event) : bool :=
  match ev with HeadObject _ _ => true | _ => false end.

Definition is_upload (ev : event) : bool :=
  match ev with Upload _ _ _ => true | _ => false end.

Definition is_read (ev : event) : bool :=
  match ev with ReadFile _ => true | _ => false end.

(** The existence checks sent to the bucket, in order. *)
Definition head_requests (tr : list entry) : list event :=
  filter is_head (requests tr).

(** The states reached by the event loop in exactly [n] turns. *)
Inductive reachable_in (w : world) (localPath bucketName s3Path : string)
  (files : list string) (limit : nat) : nat -> engine -> Prop :=
| reach_0 : reachable_in w localPath bucketName s3Path files limit 0 start
| reach_S n e e' :
    reachable_in w localPath bucketName s3Path files limit n e ->
    step w localPath bucketName s3Path files limit e e' ->
    reachable_in w localPath bucketName s3Path files limit (S n) e'.

(** *** Reading a JSON string literal back

    The reverse of [json_chars], up to the closing quote: the characters
    read and what follows the quote. *)

Definition hex_value (c : ascii) : option nat :=
  let n := nat_of_ascii c in
  if (48 <=? n) && (n <=? 57) then Some (n - 48)
  else if (97 <=? n) && (n <=? 102) then Some (n - 87)
  else None.

Definition unescape (c : ascii) : option ascii :=
  let n := nat_of_ascii c in
  if n =? 34 then Some dquote
  else if n =? 92 then Some backslash
  else if n =? 98 then Some (chr 8)
  else if n =? 116 then Some (chr 9)
  else if n =? 110 then Some (chr 10)
  else if n =? 102 then Some (chr 12)
  else if n =? 114 then Some (chr 13)
  else None.

Definition cons_read (c : ascii) (r : option (string * string)) : option (string * string) :=
  match r with
  | Some (s, rest) => Some (String c s, rest)
  | None => None
  end.

Fixpoint read_chars (s : string) : option (string * string) :=
  match s with
  | EmptyString => None
  | String c r =>
      if is_chr 34 c then Some (EmptyString, r)
      else if is_chr 92 c then
        match r with
        | String d r' =>
            if is_chr 117 d then
              match r' with
              | String h1 (String h2 (String h3 (String h4 r''))) =>
                  match hex_value h1, hex_value h2, hex_value h3, hex_value h4 with
                  | Some 0, Some 0, Some a, Some b =>
                      cons_read (chr (16 * a + b)) (read_chars r'')
                  | _, _, _, _ => None
                  end
              | _ => None
              end
            else
              match unescape d with
              | Some c' => cons_read c' (read_chars r')
              | None => None
              end
        | EmptyString => None
        end
      else cons_read c (read_chars r)
  end.

(** ** Hosts that fail *)
Module Faults.

(** [/x/links] holds a regular file, then an entry whose target is gone,
    then another regular file. *)
Definition dangling_tree : Host.tree := fun p =>
  if String.eqb p "/x/links" then Some (Host.Folder ["ok.txt"; "ghost"; "later.txt"])
  else if String.eqb p "/x/links/ok.txt" then Some (Host.Regular "ok")
  else if String.eqb p "/x/links/later.txt" then Some (Host.Regular "later")
  else Host.demo_tree p.

Definition dangling : world :=
  Host.posix dangling_tree [] [] Host.demo_iso.

(** The host of [Host.demo] with a working directory that refuses
    writes. *)
Definition read_only : world :=
  {| env := env Host.demo;
     clock_iso := clock_iso Host.demo;
     path_join := path_join Host.demo;
     readdirSync := readdirSync Host.demo;
     statSync_isFile := statSync_isFile Host.demo;
     readFileSync := readFileSync Host.demo;
     writeFileSync := fun name _ =>
       Throw (Host.errno "EACCES" "permission denied, open" name);
     headBucket := headBucket Host.demo;
     headObject := headObject Host.demo;
     upload := upload Host.demo |}.

(** The host of [Host.demo] with a bucket probe that fails with the
    code [c]. *)
Definition probe_fails (c : string) : world :=
  {| env := env Host.demo;
     clock_iso := clock_iso Host.demo;
     path_join := path_join Host.demo;
     readdirSync := readdirSync Host.demo;
     statSync_isFile := statSync_isFile Host.demo;
     readFileSync := readFileSync Host.demo;
     writeFileSync := writeFileSync Host.demo;
     headBucket := fun _ => Throw (Host.s3_error c);
     headObject := headObject Host.demo;
     upload := upload Host.demo |}.

(** The tree of [Host.demo] with a bucket that already holds the three
    files of [/x/y]. *)
Definition all_there : world :=
  Host.posix Host.demo_tree ["photos/a.txt"; "photos/b.txt"; "photos/c.txt"] []
    Host.demo_iso.

(** The host of [Host.demo] on which [/x/y/a.txt] is listed and is a
    regular file, but cannot be opened. *)
Definition unreadable : world :=
  {| env := env Host.demo;
     clock_iso := clock_iso Host.demo;
     path_join := path_join Host.demo;
     readdirSync := readdirSync Host.demo;
     statSync_isFile := statSync_isFile Host.demo;
     readFileSync := fun p =>
       if String.eqb p "/x/y/a.txt"
       then Throw (Host.errno "EACCES" "permission denied, open" p)
       else readFileSync Host.demo p;
     writeFileSync := writeFileSync Host.demo;
     headBucket := headBucket Host.demo;
     headObject := headObject Host.demo;
     upload := upload Host.demo |}.

(** [/x/ghosts] holds one entry, a link whose target is gone: the
    directory exists and holds no regular file, and [statSync] throws on
    its entry. *)
Definition ghost_tree : Host.tree := fun p =>
  if String.eqb p "/x/ghosts" then Some (Host.Folder ["ghost"])
  else Host.demo_tree p.

Definition ghost_only : world :=
  Host.posix ghost_tree [] [] Host.demo_iso.

(** The host of [Host.demo] without [AWS_REGION]. *)
Definition no_region : world :=
  {| env := fun v => if String.eqb v "AWS_REGION" then None else Some "set";
     clock_iso := clock_iso Host.demo;
     path_join := path_join Host.demo;
     readdirSync := readdirSync Host.demo;
     statSync_isFile := statSync_isFile Host.demo;
     readFileSync := readFileSync Host.demo;
     writeFileSync := writeFileSync Host.demo;
     headBucket := headBucket Host.demo;
     headObject := headObject Host.demo;
     upload := upload Host.demo |}.

End Faults.

(** * Properties *)

(** Unfolding by name, for the sections below that abbreviate these
    constants applied to their parameters. *)
Ltac unfold_resume := unfold resume.
Ltac unfold_resume_in H := unfold resume in H.
Ltac unfold_outcome := unfold script, verdict_of, consistent in *.
Ltac unfold_sched_step := unfold sched_step.
Ltac unfold_run_all := unfold run_all.
Ltac unfold_tally := unfold tally.
Ltac unfold_name := unfold name.
Ltac unfold_failure_of := unfold failure_of.
Ltac unfold_verdict_tests := unfold is_uploaded, is_duplicate, is_failed in *.
Ltac unfold_task_ok := unfold task_ok in *.
Ltac unfold_pending_work := unfold pending_work.
Ltac unfold_pending_work_in H := unfold pending_work in H.


(** ** Traces *)

Lemma events_of_app i tr1 tr2 :
  events_of i (tr1 ++ tr2) = events_of i tr1 ++ events_of i tr2.
Proof. unfold events_of. now rewrite filter_app, map_app. Qed.

Lemma events_of_by_task_same i evs : events_of i (by_task i evs) = evs.
Proof.
  unfold events_of, by_task. induction evs as [|ev evs IH]; simpl; [easy|].
  unfold performed_by at 1; simpl. rewrite Nat.eqb_refl. simpl. now f_equal.
Qed.

Lemma events_of_by_task_other i j evs : j <> i -> events_of i (by_task j evs) = [].
Proof.
  intros Hne. unfold events_of, by_task. induction evs as [|ev evs IH]; simpl; [easy|].
  unfold performed_by at 1; simpl.
  destruct (Nat.eqb_spec j i) as [->|_]; [easy | exact IH].
Qed.

Lemma finished_app tr1 tr2 : finished (tr1 ++ tr2) = finished tr1 ++ finished tr2.
Proof. apply flat_map_app. Qed.

Lemma progress_lines_app tr1 tr2 :
  progress_lines (tr1 ++ tr2) = progress_lines tr1 ++ progress_lines tr2.
Proof. apply flat_map_app. Qed.

Lemma writes_app tr1 tr2 : writes (tr1 ++ tr2) = writes tr1 ++ writes tr2.
Proof. unfold writes. now rewrite map_app, filter_app. Qed.

Lemma requests_app tr1 tr2 : requests (tr1 ++ tr2) = requests tr1 ++ requests tr2.
Proof. unfold requests. now rewrite map_app, filter_app. Qed.

Lemma in_events_of i ev tr : In ev (events_of i tr) <-> In (Some i, ev) tr.
Proof.
  unfold events_of. rewrite in_map_iff. split.
  - intros [[who ev'] [Hev Hin]]. simpl in Hev. subst ev'.
    apply filter_In in Hin. destruct Hin as [Hin Hby].
    unfold performed_by in Hby. simpl in Hby. destruct who as [j|]; [|discriminate].
    apply Nat.eqb_eq in Hby. now subst j.
  - intros Hin. exists (Some i, ev). split; [reflexivity|].
    apply filter_In. split; [assumption|].
    unfold performed_by. simpl. apply Nat.eqb_refl.
Qed.

Lemma in_finished j tr :
  In j (finished tr) <-> exists n t, In (Some j, Console (LProgress n t)) tr.
Proof.
  unfold finished. rewrite in_flat_map. split.
  - intros [[who ev] [Hin Hc]].
    destruct who as [i|]; [|contradiction].
    destruct ev as [| | | |l]; try contradiction.
    destruct l; try contradiction.
    destruct Hc as [->|[]]. eauto.
  - intros (n & t & Hin). exists (Some j, Console (LProgress n t)). simpl. auto.
Qed.

(** ** One task *)

Section TaskFacts.

Variable w : world.
Variables localPath bucketName s3Path : string.
Variable files : list string.

Local Abbreviation total := (totalFiles files).
Local Abbreviation resume := (resume w localPath bucketName s3Path files).
Local Abbreviation script := (script w localPath bucketName s3Path).
Local Abbreviation so_far := (so_far w localPath bucketName s3Path).
Local Abbreviation consistent := (consistent w localPath bucketName s3Path).
Local Abbreviation verdict_of := (verdict_of w localPath bucketName s3Path).

(** Resuming a suspended task either completes it, with the events of
    [script], the progress line and the bucket of [verdict_of], or
    suspends it at the upload. *)
Lemma resume_spec t s t' s' evs :
  is_settled t = false ->
  consistent (fileName t) (at_ t) ->
  resume t s = (t', s', evs) ->
  tid t' = tid t /\ fileName t' = fileName t /\
  consistent (fileName t) (at_ t') /\
  ((at_ t' = Settled /\
    so_far (fileName t) (at_ t) ++ evs
      = script (fileName t) ++ [Console (LProgress (S (processedCount s)) total)] /\
    s' = record_verdict (fileName t) (verdict_of (fileName t)) s /\
    finished (by_task (tid t) evs) = [tid t] /\
    progress_lines (by_task (tid t) evs) = [LProgress (S (processedCount s)) total])
   \/
   (is_settled t' = false /\
    so_far (fileName t) (at_ t) ++ evs = so_far (fileName t) (at_ t') /\
    s' = s /\
    finished (by_task (tid t) evs) = [] /\
    progress_lines (by_task (tid t) evs) = [])).
Proof.
  destruct t as [i f ph]. unfold is_settled. unfold_resume. simpl.
  destruct ph as [|body|]; intros Hns Hc Hres; [| |discriminate].
  - (* resumed after headObject *)
    unfold_outcome. unfold after_headObject, settle, progress, upload_failed in *.
    destruct (headObject w bucketName (s3Key w s3Path f)) as [u|err] eqn:Hhead.
    + inversion Hres; subst; clear Hres. simpl.
      repeat split; auto. left. repeat split; auto.
    + destruct (code_is err "NotFound") eqn:Hnf.
      * destruct (readFileSync w (localFilePath w localPath f)) as [body|ue] eqn:Hread.
        -- inversion Hres; subst; clear Hres. simpl.
           repeat split; eauto. right. repeat split; auto.
        -- inversion Hres; subst; clear Hres. simpl.
           repeat split; auto. left. repeat split; auto.
      * inversion Hres; subst; clear Hres. simpl.
        repeat split; auto. left. repeat split; auto.
  - (* resumed after upload *)
    unfold_outcome. unfold after_upload, settle, progress, upload_failed in *.
    destruct Hc as [(err & Hhead & Hnf) Hread].
    rewrite Hhead, Hnf, Hread.
    destruct (upload w bucketName (s3Key w s3Path f) body) as [u|ue] eqn:Hup;
      inversion Hres; subst; clear Hres; simpl;
      repeat split; auto; left; repeat split; auto.
Qed.

Lemma resume_weight t s t' s' evs :
  is_settled t = false ->
  resume t s = (t', s', evs) ->
  weight (at_ t') < weight (at_ t).
Proof.
  destruct t as [i f ph]. unfold is_settled. unfold_resume. simpl.
  destruct ph as [|body|]; intros Hns Hres; [| |discriminate].
  - unfold after_headObject, settle, progress, upload_failed in Hres.
    destruct (headObject w bucketName (s3Key w s3Path f)) as [u|err].
    + inversion Hres; subst. simpl. lia.
    + destruct (code_is err "NotFound").
      * destruct (readFileSync w (localFilePath w localPath f));
          inversion Hres; subst; simpl; lia.
      * inversion Hres; subst. simpl. lia.
  - unfold after_upload, settle, progress, upload_failed in Hres.
    destruct (upload w bucketName (s3Key w s3Path f) body);
      inversion Hres; subst; simpl; lia.
Qed.

End TaskFacts.

(** ** The engine *)

Lemma in_flight_cons t q :
  in_flight (t :: q) = if is_settled t then in_flight q else S (in_flight q).
Proof. unfold in_flight. simpl. now destruct (is_settled t). Qed.

Lemma in_flight_le q : in_flight q <= List.length q.
Proof. apply filter_length_le. Qed.

Lemma in_flight_zero q :
  in_flight q = 0 -> Forall (fun t => is_settled t = true) q.
Proof.
  induction q as [|t q IH]; intros H; [constructor|].
  rewrite in_flight_cons in H. destruct (is_settled t) eqn:Ht; [|discriminate].
  constructor; auto.
Qed.

Lemma in_flight_app q1 q2 : in_flight (q1 ++ q2) = in_flight q1 + in_flight q2.
Proof. unfold in_flight. now rewrite filter_app, length_app. Qed.

Section EngineFacts.

Variable w : world.
Variables localPath bucketName s3Path : string.
Variable files : list string.
Variable limit : nat.

Local Abbreviation total := (totalFiles files).
Local Abbreviation step := (step w localPath bucketName s3Path files limit).
Local Abbreviation sched_step := (sched_step w localPath bucketName s3Path files limit).
Local Abbreviation run := (run w localPath bucketName s3Path files limit).
Local Abbreviation run_all := (run_all w localPath bucketName s3Path files limit).
Local Abbreviation reachable := (reachable w localPath bucketName s3Path files limit).
Local Abbreviation resume := (resume w localPath bucketName s3Path files).
Local Abbreviation resume_nth := (resume_nth w localPath bucketName s3Path files).
Local Abbreviation script := (script w localPath bucketName s3Path).
Local Abbreviation so_far := (so_far w localPath bucketName s3Path).
Local Abbreviation consistent := (consistent w localPath bucketName s3Path).
Local Abbreviation verdict_of := (verdict_of w localPath bucketName s3Path).
Local Abbreviation tally := (tally w localPath bucketName s3Path files).
Local Abbreviation name := (name files).
Local Abbreviation pending_work := (pending_work files).

(** *** The scheduler takes steps of the relation *)

Lemma resume_nth_spec k q s :
  k < in_flight q ->
  exists q1 t q2 t' s' evs,
    q = q1 ++ t :: q2 /\ is_settled t = false /\ in_flight q1 = k /\
    resume t s = (t', s', evs) /\
    resume_nth k q s = (q1 ++ t' :: q2, s', by_task (tid t) evs).
Proof.
  revert k. induction q as [|t q IH]; intros k Hk; [inversion Hk|].
  rewrite in_flight_cons in Hk. simpl.
  destruct (is_settled t) eqn:Ht.
  - destruct (IH k Hk) as (q1 & t0 & q2 & t' & s' & evs & -> & Hns & Hq1 & Hres & Hnth).
    rewrite Hnth. exists (t :: q1), t0, q2, t', s', evs.
    repeat split; auto. rewrite in_flight_cons, Ht. exact Hq1.
  - destruct k as [|k].
    + destruct (resume t s) as [[t' s'] evs] eqn:Hres.
      exists [], t, q, t', s', evs. repeat split; auto.
    + destruct (IH k) as (q1 & t0 & q2 & t' & s' & evs & -> & Hns & Hq1 & Hres & Hnth);
        [lia|].
      rewrite Hnth. exists (t :: q1), t0, q2, t', s', evs.
      repeat split; auto. rewrite in_flight_cons, Ht. now rewrite Hq1.
Qed.

Lemma sched_step_sound c e : pc e <> Finished -> step e (sched_step c e).
Proof.
  intros Hpc. unfold_sched_step.
  destruct (pc e) eqn:Epc; [| | |congruence].
  - destruct (nth_error files (cursor e)) as [f|] eqn:Hnth.
    + unfold processFile. cbv beta iota.
      now apply (step_dispatch w localPath bucketName s3Path files limit e f _ _ Epc Hnth eq_refl).
    + now apply step_loop_end.
  - unfold await_all. destruct (in_flight (queue e)) as [|m] eqn:Hfl.
    + now apply step_batch_done.
    + destruct (resume_nth_spec (c mod S m) (queue e) (vars e))
        as (q1 & t & q2 & t' & s' & evs & Hq & Hns & _ & Hres & Hnth).
      { rewrite Hfl. apply Nat.mod_upper_bound. discriminate. }
      rewrite Hnth. eapply step_resume; eauto.
  - unfold await_all. destruct (in_flight (queue e)) as [|m] eqn:Hfl.
    + now apply step_last_done.
    + destruct (resume_nth_spec (c mod S m) (queue e) (vars e))
        as (q1 & t & q2 & t' & s' & evs & Hq & Hns & _ & Hres & Hnth).
      { rewrite Hfl. apply Nat.mod_upper_bound. discriminate. }
      rewrite Hnth. eapply step_resume; eauto.
Qed.

Lemma sched_step_finished c e : pc e = Finished -> sched_step c e = e.
Proof. intros H. unfold_sched_step. now rewrite H. Qed.

(** Every step of the relation is the step of some schedule: the
    schedules cover all the orders in which the requests can settle. *)
Lemma sched_step_complete e e' : step e e' -> exists c, sched_step c e = e'.
Proof.
  intros Hstep. destruct Hstep as
    [e f t evs Hpc Hnth Hpf | e Hpc Hnth | e q1 t q2 t' s' evs Hpc Hq Hns Hres
    | e Hpc Hfl | e Hpc Hfl]; unfold_sched_step.
  - exists 0. now rewrite Hpc, Hnth, Hpf.
  - exists 0. now rewrite Hpc, Hnth.
  - exists (in_flight q1).
    assert (Hlt : in_flight q1 < in_flight (queue e)).
    { rewrite Hq, in_flight_app, in_flight_cons, Hns. lia. }
    assert (Hsel : forall k q s, in_flight q1 = k -> q = q1 ++ t :: q2 ->
              resume_nth k q s = (let '(t1, s1, evs1) := resume t s in
                                  (q1 ++ t1 :: q2, s1, by_task (tid t) evs1))).
    { clear - Hns. induction q1 as [|t0 q1 IH]; intros k q s Hk ->; simpl.
      - rewrite Hns. cbn in Hk. subst k. reflexivity.
      - rewrite in_flight_cons in Hk. destruct (is_settled t0) eqn:Ht0.
        + rewrite (IH k _ s Hk eq_refl). now destruct (resume t s) as [[? ?] ?].
        + destruct k as [|k]; [discriminate|]. injection Hk as Hk.
          rewrite (IH k _ s Hk eq_refl). now destruct (resume t s) as [[? ?] ?]. }
    unfold await_all. destruct (in_flight (queue e)) as [|m] eqn:Hfl; [lia|].
    rewrite Nat.mod_small by lia.
    rewrite (Hsel _ _ (vars e) eq_refl Hq), Hres.
    destruct Hpc as [Hpc|Hpc]; now rewrite Hpc.
  - exists 0. rewrite Hpc. unfold await_all. now rewrite Hfl.
  - exists 0. rewrite Hpc. unfold await_all. now rewrite Hfl.
Qed.

Lemma run_reachable sched n : reachable (run sched n).
Proof.
  induction n as [|n IH]; [constructor|]. simpl.
  destruct (pc (run sched n)) eqn:Hpc;
    try (apply (reach_step w localPath bucketName s3Path files limit (run sched n));
         [exact IH | apply sched_step_sound; congruence]).
  now rewrite sched_step_finished.
Qed.

Lemma run_ext sched sched' n :
  (forall m, m < n -> sched m = sched' m) -> run sched n = run sched' n.
Proof.
  induction n as [|n IH]; intros H; [reflexivity|]. simpl.
  rewrite IH by (intros m Hm; apply H; lia). now rewrite (H n) by lia.
Qed.

(** The runs under all the schedules are all the executions. *)
Lemma reachable_run e : reachable e -> exists sched n, run sched n = e.
Proof.
  induction 1 as [|e e' _ (sched & n & Hrun) Hstep].
  - exists (fun _ => 0), 0. reflexivity.
  - destruct (sched_step_complete e e' Hstep) as (c & Hc).
    exists (fun m => if m =? n then c else sched m), (S n). simpl.
    rewrite Nat.eqb_refl.
    rewrite <- (run_ext sched), Hrun; [exact Hc|].
    intros m Hm. destruct (Nat.eqb_spec m n); [lia | reflexivity].
Qed.

(** *** Termination *)

Lemma step_decreases e e' : step e e' -> pending_work e' < pending_work e.
Proof.
  intros Hstep. destruct Hstep as
    [e f t evs Hpc Hnth Hpf | e Hpc Hnth | e q1 t q2 t' s' evs Hpc Hq Hns Hres
    | e Hpc Hfl | e Hpc Hfl]; unfold_pending_work; simpl; rewrite ?Hpc.
  - assert (cursor e < total) by (apply nth_error_Some; congruence).
    inversion Hpf; subst. rewrite map_app, list_sum_app. simpl.
    destruct (limit <=? _); lia.
  - lia.
  - apply resume_weight in Hres; [|assumption].
    rewrite Hq, !map_app, !list_sum_app. simpl.
    destruct Hpc as [-> | ->]; lia.
  - lia.
  - lia.
Qed.

Lemma run_progress sched n :
  pc (run sched n) = Finished \/ pending_work (run sched n) + n <= 4 * total + 2.
Proof.
  induction n as [|n IH]; simpl.
  - right. unfold_pending_work. simpl. lia.
  - destruct IH as [IH|IH].
    + left. now rewrite sched_step_finished.
    + destruct (pc (run sched n)) eqn:Hpc;
        try (right;
             assert (Hs : step (run sched n) (sched_step (sched n) (run sched n)))
               by (apply sched_step_sound; congruence);
             apply step_decreases in Hs; lia).
      left. now rewrite sched_step_finished.
Qed.

(** Whatever the order in which the requests settle, [uploadDirectory]
    gets past its last [await]. *)
Lemma run_finishes sched : pc (run_all sched) = Finished.
Proof.
  unfold_run_all. unfold turns.
  destruct (run_progress sched (4 * total + 2)) as [H|H]; [exact H|].
  unfold_pending_work_in H.
  destruct (pc (run sched (4 * total + 2))); try lia. reflexivity.
Qed.

End EngineFacts.

(** ** What holds at every instant of a run *)

Section EngineInvariant.

Variable w : world.
Variables localPath bucketName s3Path : string.
Variable files : list string.
Variable limit : nat.
Hypothesis limit_pos : 0 < limit.

Local Abbreviation total := (totalFiles files).
Local Abbreviation step := (step w localPath bucketName s3Path files limit).
Local Abbreviation sched_step := (sched_step w localPath bucketName s3Path files limit).
Local Abbreviation run := (run w localPath bucketName s3Path files limit).
Local Abbreviation run_all := (run_all w localPath bucketName s3Path files limit).
Local Abbreviation resume := (resume w localPath bucketName s3Path files).
Local Abbreviation script := (script w localPath bucketName s3Path).
Local Abbreviation so_far := (so_far w localPath bucketName s3Path).
Local Abbreviation consistent := (consistent w localPath bucketName s3Path).
Local Abbreviation verdict_of := (verdict_of w localPath bucketName s3Path).
Local Abbreviation tally := (tally w localPath bucketName s3Path files).
Local Abbreviation name := (name files).
Local Abbreviation task_ok := (task_ok w localPath bucketName s3Path).
Local Abbreviation inv := (inv w localPath bucketName s3Path files limit).
Local Abbreviation inv_base := (inv_base w localPath bucketName s3Path files limit).
Local Abbreviation inv_names := (inv_names w localPath bucketName s3Path files limit).
Local Abbreviation inv_cursor := (inv_cursor w localPath bucketName s3Path files limit).
Local Abbreviation inv_len := (inv_len w localPath bucketName s3Path files limit).
Local Abbreviation inv_pc := (inv_pc w localPath bucketName s3Path files limit).
Local Abbreviation inv_store := (inv_store w localPath bucketName s3Path files limit).
Local Abbreviation inv_fresh := (inv_fresh w localPath bucketName s3Path files limit).
Local Abbreviation inv_queue := (inv_queue w localPath bucketName s3Path files limit).
Local Abbreviation inv_done := (inv_done w localPath bucketName s3Path files limit).
Local Abbreviation inv_past := (inv_past w localPath bucketName s3Path files limit).
Local Abbreviation inv_nodup := (inv_nodup w localPath bucketName s3Path files limit).
Local Abbreviation inv_progress := (inv_progress w localPath bucketName s3Path files limit).

Lemma tally_snoc l j :
  tally (l ++ [j]) = record_verdict (name j) (verdict_of (name j)) (tally l).
Proof. unfold_tally. now rewrite fold_left_app. Qed.

Lemma tally_processedCount l : processedCount (tally l) = List.length l.
Proof.
  clear limit_pos. induction l as [|j l IH] using rev_ind; [reflexivity|].
  rewrite tally_snoc, length_app. simpl. unfold record_verdict.
  destruct (verdict_of (name j)); simpl; lia.
Qed.

Lemma inv_start : inv (start).
Proof.
  constructor; simpl; auto; try lia.
  - exists 0. auto.
  - constructor.
Qed.

Lemma queue_tid_lt e t : inv e -> In t (queue e) -> tid t < cursor e.
Proof.
  intros He Hin. destruct (inv_base e He) as (k & Hc & Hm).
  apply (in_map tid) in Hin. rewrite Hm in Hin. apply in_seq in Hin. lia.
Qed.

Lemma queue_tid_nodup e : inv e -> NoDup (map tid (queue e)).
Proof.
  intros He. destruct (inv_base e He) as (k & Hc & Hm). rewrite Hm. apply seq_NoDup.
Qed.

Lemma name_of_task e t : inv e -> In t (queue e) -> name (tid t) = fileName t.
Proof.
  intros He Hin. pose proof (inv_names e He) as Hn.
  rewrite Forall_forall in Hn. specialize (Hn t Hin).
  unfold_name. now apply nth_error_nth.
Qed.

Lemma inv_dispatch e f t evs :
  inv e ->
  pc e = Looping ->
  nth_error files (cursor e) = Some f ->
  processFile w bucketName s3Path (cursor e) f = (t, evs) ->
  inv {| pc := if limit <=? List.length (queue e ++ [t]) then AwaitBatch else Looping;
         cursor := S (cursor e);
         queue := queue e ++ [t];
         vars := vars e;
         out := out e ++ by_task (cursor e) evs |}.
Proof.
  intros He Hpc Hnth Hpf. unfold processFile in Hpf. inversion Hpf; subst t evs; clear Hpf.
  pose proof (inv_pc e He) as Hp. rewrite Hpc in Hp. destruct Hp as [Hlen Hheads].
  assert (Hlt : cursor e < total) by (apply nth_error_Some; congruence).
  assert (Hfin : finished (out e ++ by_task (cursor e)
                   [HeadObject bucketName (s3Key w s3Path f)]) = finished (out e)).
  { rewrite finished_app. simpl. apply app_nil_r. }
  constructor; cbn [pc cursor queue vars out]; rewrite ?Hfin, ?length_app;
    cbn [List.length].
  - destruct (inv_base e He) as (k & Hc & Hm). exists k. split; [lia|].
    rewrite map_app, Hm, Nat.add_1_r, seq_S. simpl. now rewrite <- Hc.
  - apply Forall_app. split; [apply (inv_names e He)|]. constructor; auto.
  - lia.
  - lia.
  - destruct (Nat.leb_spec limit (List.length (queue e) + 1)).
    + lia.
    + split; [lia|]. apply Forall_app. split; auto.
  - apply (inv_store e He).
  - intros i Hi. rewrite events_of_app, (inv_fresh e He) by lia.
    rewrite events_of_by_task_other by lia. reflexivity.
  - apply Forall_app. split.
    + pose proof (inv_queue e He) as Hq. rewrite Forall_forall in *.
      intros t Hin. specialize (Hq t Hin). unfold_task_ok.
      rewrite Hfin, events_of_app, events_of_by_task_other, app_nil_r; [exact Hq|].
      pose proof (queue_tid_lt e t He Hin). lia.
    + constructor; [|constructor]. unfold_task_ok. unfold is_settled.
      cbn [at_ tid fileName]. split; [exact I|].
      rewrite Hfin. split.
      * intros Hin. apply (inv_done e He) in Hin. lia.
      * rewrite events_of_app, (inv_fresh e He) by lia.
        now rewrite events_of_by_task_same.
  - intros j Hj. destruct (inv_done e He j Hj) as (Hjc & n & Hev). split; [lia|].
    exists n. rewrite events_of_app, events_of_by_task_other, app_nil_r by lia. exact Hev.
  - intros j Hj. apply (inv_past e He). lia.
  - apply (inv_nodup e He).
  - rewrite progress_lines_app. simpl. rewrite app_nil_r. apply (inv_progress e He).
Qed.

Lemma finished_by_task i evs j : In j (finished (by_task i evs)) -> j = i.
Proof.
  rewrite in_finished. intros (n & t & Hin).
  unfold by_task in Hin. apply in_map_iff in Hin. destruct Hin as (ev & Heq & _).
  now inversion Heq.
Qed.

Lemma task_ok_other tr i evs t0 :
  tid t0 <> i -> task_ok tr t0 -> task_ok (tr ++ by_task i evs) t0.
Proof.
  intros Hne [Hc Hst]. split; [exact Hc|].
  destruct (is_settled t0).
  - rewrite finished_app. apply in_or_app. now left.
  - destruct Hst as [Hnot Hev]. split.
    + rewrite finished_app. intros Hin. apply in_app_or in Hin.
      destruct Hin as [Hin|Hin]; [now apply Hnot|].
      apply finished_by_task in Hin. contradiction.
    + now rewrite events_of_app, events_of_by_task_other, app_nil_r by auto.
Qed.

Lemma inv_resume e q1 t q2 t' s' evs :
  inv e ->
  pc e = AwaitBatch \/ pc e = AwaitLast ->
  queue e = q1 ++ t :: q2 ->
  is_settled t = false ->
  resume t (vars e) = (t', s', evs) ->
  inv {| pc := pc e; cursor := cursor e; queue := q1 ++ t' :: q2;
         vars := s'; out := out e ++ by_task (tid t) evs |}.
Proof.
  intros He Hpc Hq Hns Hres.
  assert (Hin : In t (queue e)) by (rewrite Hq; apply in_elt).
  pose proof (inv_queue e He) as Hqok.
  assert (Hqok' := Hqok). rewrite Forall_forall in Hqok'.
  destruct (Hqok' t Hin) as [Hcons Hst]. rewrite Hns in Hst.
  destruct Hst as [Hnotfin Hev]. clear Hqok'.
  destruct (resume_spec w localPath bucketName s3Path files t (vars e) t' s' evs
              Hns Hcons Hres) as (Htid & Hname & Hcons' & Hcase).
  assert (Hlen : List.length (q1 ++ t' :: q2) = List.length (queue e))
    by (rewrite Hq, !length_app; reflexivity).
  assert (Hmap : map tid (q1 ++ t' :: q2) = map tid (queue e))
    by (rewrite Hq, !map_app; simpl; now rewrite Htid).
  assert (Htlt : tid t < cursor e) by (now apply queue_tid_lt).
  assert (Hnm : name (tid t) = fileName t) by (now apply (name_of_task e)).
  assert (Hother : forall t0, In t0 (q1 ++ q2) -> tid t0 <> tid t).
  { intros t0 Hin0 Heq. pose proof (queue_tid_nodup e He) as Hnd.
    rewrite Hq, map_app in Hnd. simpl in Hnd. apply NoDup_remove_2 in Hnd.
    apply Hnd. rewrite <- map_app, <- Heq. now apply in_map. }
  assert (Hrest : Forall (task_ok (out e ++ by_task (tid t) evs)) (q1 ++ q2)).
  { rewrite Hq in Hqok. apply Forall_app in Hqok. destruct Hqok as [H1 H2].
    inversion H2 as [|? ? _ H2']; subst.
    assert (H12 : Forall (task_ok (out e)) (q1 ++ q2)) by (now apply Forall_app).
    rewrite Forall_forall in *. intros t0 Hin0.
    apply task_ok_other; auto. }
  assert (Hqueue : task_ok (out e ++ by_task (tid t) evs) t' ->
                   Forall (task_ok (out e ++ by_task (tid t) evs)) (q1 ++ t' :: q2)).
  { intros Ht'. apply Forall_app in Hrest. destruct Hrest as [H1 H2].
    apply Forall_app. split; [exact H1|]. now constructor. }
  assert (Hbase : exists k, cursor e = k * limit + List.length (q1 ++ t' :: q2)
                  /\ map tid (q1 ++ t' :: q2) = seq (k * limit) (List.length (q1 ++ t' :: q2))).
  { rewrite Hlen, Hmap. apply (inv_base e He). }
  assert (Hnames : Forall (fun t => nth_error files (tid t) = Some (fileName t))
                     (q1 ++ t' :: q2)).
  { pose proof (inv_names e He) as Hn. rewrite Hq in Hn.
    apply Forall_app in Hn. destruct Hn as [H1 H2]. inversion H2; subst.
    apply Forall_app. split; [exact H1|]. constructor; [|assumption].
    now rewrite Htid, Hname. }
  assert (Hpc' : match pc e with
                 | Looping => List.length (q1 ++ t' :: q2) < limit
                              /\ Forall (fun t => at_ t = AwaitHead) (q1 ++ t' :: q2)
                 | AwaitBatch => List.length (q1 ++ t' :: q2) = limit
                 | AwaitLast => cursor e = total
                 | Finished => cursor e = total /\ in_flight (q1 ++ t' :: q2) = 0
                 end).
  { pose proof (inv_pc e He) as Hp. rewrite Hlen.
    destruct Hpc as [Hp'|Hp']; rewrite Hp' in *; exact Hp. }
  assert (Hfresh : forall i, cursor e <= i ->
                   events_of i (out e ++ by_task (tid t) evs) = []).
  { intros i Hi. rewrite events_of_app, (inv_fresh e He) by lia.
    rewrite events_of_by_task_other by lia. reflexivity. }
  assert (Hcount : processedCount (vars e) = List.length (finished (out e))).
  { rewrite (inv_store e He). apply tally_processedCount. }
  destruct Hcase as [(Hat & Hevs & Hs & Hfin & Hprog) | (Hat & Hevs & Hs & Hfin & Hprog)].
  - (* the task has completed *)
    assert (Hfin' : finished (out e ++ by_task (tid t) evs) = finished (out e) ++ [tid t])
      by (now rewrite finished_app, Hfin).
    constructor; cbn [pc cursor queue vars out]; try assumption.
    + apply (inv_cursor e He).
    + rewrite Hlen. apply (inv_len e He).
    + rewrite Hfin', tally_snoc, Hnm, <- (inv_store e He). exact Hs.
    + apply Hqueue. split; [now rewrite Hname|].
      unfold is_settled. rewrite Hat, Htid, Hfin'. apply in_or_app. right. now left.
    + intros j Hj. rewrite Hfin' in Hj. apply in_app_or in Hj. destruct Hj as [Hj|Hj].
      * destruct (inv_done e He j Hj) as (Hjc & n & Hjev). split; [exact Hjc|].
        exists n. rewrite events_of_app, events_of_by_task_other, app_nil_r; [exact Hjev|].
        intros Heq. subst j. contradiction.
      * destruct Hj as [<-|[]]. split; [exact Htlt|].
        exists (S (processedCount (vars e))).
        now rewrite events_of_app, events_of_by_task_same, Hev, Hnm.
    + intros j Hj. rewrite Hlen in Hj. rewrite Hfin'. apply in_or_app. left.
      now apply (inv_past e He).
    + rewrite Hfin'. apply NoDup_app; [apply (inv_nodup e He) | repeat constructor; auto |].
      intros a Ha [<-|[]]. contradiction.
    + rewrite progress_lines_app, Hprog, Hfin', length_app, (inv_progress e He).
      cbn [List.length]. rewrite Nat.add_1_r, seq_S, map_app, Hcount. reflexivity.
  - (* the task waits for its upload *)
    assert (Hfin' : finished (out e ++ by_task (tid t) evs) = finished (out e))
      by (now rewrite finished_app, Hfin, app_nil_r).
    constructor; cbn [pc cursor queue vars out]; try assumption.
    + apply (inv_cursor e He).
    + rewrite Hlen. apply (inv_len e He).
    + rewrite Hfin', Hs. apply (inv_store e He).
    + apply Hqueue. split; [now rewrite Hname|].
      rewrite Hat, Htid, Hname, Hfin'. split; [exact Hnotfin|].
      now rewrite events_of_app, events_of_by_task_same, Hev.
    + intros j Hj. rewrite Hfin' in Hj.
      destruct (inv_done e He j Hj) as (Hjc & n & Hjev). split; [exact Hjc|].
      exists n. rewrite events_of_app, events_of_by_task_other, app_nil_r; [exact Hjev|].
      intros Heq. subst j. contradiction.
    + intros j Hj. rewrite Hlen in Hj. rewrite Hfin'. now apply (inv_past e He).
    + rewrite Hfin'. apply (inv_nodup e He).
    + rewrite progress_lines_app, Hprog, Hfin', app_nil_r. apply (inv_progress e He).
Qed.

(** A queued task that has settled is among the completed ones. *)
Lemma settled_in_queue e j :
  inv e ->
  in_flight (queue e) = 0 ->
  j < cursor e ->
  In j (finished (out e)).
Proof.
  intros He Hfl Hj.
  destruct (Nat.lt_ge_cases (j + List.length (queue e)) (cursor e)) as [Hlt|Hge].
  - now apply (inv_past e He).
  - destruct (inv_base e He) as (k & Hc & Hm).
    assert (Hin : In j (map tid (queue e))) by (rewrite Hm; apply in_seq; lia).
    apply in_map_iff in Hin. destruct Hin as (t & Ht & Hin).
    pose proof (inv_queue e He) as Hq. rewrite Forall_forall in Hq.
    destruct (Hq t Hin) as [_ Hst].
    apply in_flight_zero in Hfl. rewrite Forall_forall in Hfl.
    rewrite (Hfl t Hin), Ht in Hst. exact Hst.
Qed.

Lemma inv_step e e' : inv e -> step e e' -> inv e'.
Proof.
  intros He Hstep. destruct Hstep as
    [e f t evs Hpc Hnth Hpf | e Hpc Hnth | e q1 t q2 t' s' evs Hpc Hq Hns Hres
    | e Hpc Hfl | e Hpc Hfl].
  - now apply (inv_dispatch e f).
  - destruct He as [Hb Hn Hcu Hl Hp Hs Hf Hqu Hd Hpa Hnd Hpr].
    constructor; cbn [pc cursor queue vars out]; try assumption.
    apply nth_error_None in Hnth. unfold totalFiles in *. lia.
  - now apply inv_resume.
  - pose proof (inv_pc e He) as Hfull. rewrite Hpc in Hfull.
    pose proof (fun j => settled_in_queue e j He Hfl) as Hall.
    destruct He as [Hb Hn Hcu Hl Hp Hs Hf Hqu Hd Hpa Hnd Hpr].
    constructor; cbn [pc cursor queue vars out List.length];
      try assumption; try lia.
    + destruct Hb as (k & Hc & Hm). exists (S k). split; [simpl; lia | reflexivity].
    + constructor.
    + split; [assumption | constructor].
    + constructor.
    + intros j Hj. apply Hall. lia.
  - pose proof (inv_pc e He) as Hfull. rewrite Hpc in Hfull.
    destruct He as [Hb Hn Hcu Hl Hp Hs Hf Hqu Hd Hpa Hnd Hpr].
    constructor; cbn [pc cursor queue vars out]; try assumption.
    split; assumption.
Qed.

Lemma inv_reachable e :
  reachable w localPath bucketName s3Path files limit e -> inv e.
Proof.
  induction 1 as [|e e' _ IH Hstep]; [apply inv_start | now apply (inv_step e)].
Qed.

Lemma inv_run sched n : inv (run sched n).
Proof.
  induction n as [|n IH]; [apply inv_start|]. simpl.
  destruct (pc (run sched n)) eqn:Hpc;
    try (apply (inv_step (run sched n)); [exact IH|];
         apply sched_step_sound; congruence).
  now rewrite sched_step_finished.
Qed.

(** At the end every file has been processed, once. *)
Lemma finished_all e :
  inv e -> pc e = Finished -> Permutation (finished (out e)) (seq 0 total).
Proof.
  intros He Hpc. pose proof (inv_pc e He) as Hp. rewrite Hpc in Hp.
  destruct Hp as [Hc Hfl].
  apply NoDup_Permutation; [apply (inv_nodup e He) | apply seq_NoDup |].
  intros j. rewrite in_seq. split.
  - intros Hj. apply (inv_done e He) in Hj. lia.
  - intros Hj. apply settled_in_queue; auto. lia.
Qed.

(** At every instant a task has done nothing, or a prefix of its script,
    or its script and its progress line. *)
Lemma events_of_cases e i :
  inv e ->
  events_of i (out e) = []
  \/ (exists ph, ph <> Settled /\ consistent (name i) ph
                 /\ events_of i (out e) = so_far (name i) ph)
  \/ (In i (finished (out e)) /\
      exists n, events_of i (out e) = script (name i) ++ [Console (LProgress n total)]).
Proof.
  intros He.
  destruct (Nat.le_gt_cases (cursor e) i) as [Hge|Hlt].
  - left. now apply (inv_fresh e He).
  - destruct (Nat.lt_ge_cases (i + List.length (queue e)) (cursor e)) as [Hpast|Hq].
    + right. right. pose proof (inv_past e He i Hpast) as Hin.
      split; [exact Hin|]. now apply (inv_done e He).
    + destruct (inv_base e He) as (k & Hc & Hm).
      assert (Hin : In i (map tid (queue e))) by (rewrite Hm; apply in_seq; lia).
      apply in_map_iff in Hin. destruct Hin as (t & Ht & Hin).
      pose proof (inv_queue e He) as Hok. rewrite Forall_forall in Hok.
      destruct (Hok t Hin) as [Hcons Hst].
      pose proof (name_of_task e t He Hin) as Hnm. rewrite Ht in Hnm.
      destruct (is_settled t) eqn:Hset.
      * right. right. rewrite Ht in Hst. split; [exact Hst|]. now apply (inv_done e He).
      * right. left. exists (at_ t). rewrite Hnm. rewrite Ht in Hst.
        split; [|split; [exact Hcons | apply Hst]].
        unfold is_settled in Hset. intros Heq. now rewrite Heq in Hset.
Qed.

End EngineInvariant.

(** ** What the engine writes to the trace *)

Lemma events_of_by_main i evs : events_of i (by_main evs) = [].
Proof. unfold events_of, by_main. induction evs; simpl; auto. Qed.

Lemma finished_by_main evs : finished (by_main evs) = [].
Proof. unfold finished, by_main. induction evs; simpl; auto. Qed.

Lemma by_main_app evs1 evs2 : by_main (evs1 ++ evs2) = by_main evs1 ++ by_main evs2.
Proof. apply map_app. Qed.

Lemma writes_by_main evs : writes (by_main evs) = filter is_write evs.
Proof. unfold writes, by_main. rewrite map_map. simpl. now rewrite map_id. Qed.

Lemma requests_by_main evs : requests (by_main evs) = filter is_request evs.
Proof. unfold requests, by_main. rewrite map_map. simpl. now rewrite map_id. Qed.

Lemma task_entries_no_write bound tr : Forall (task_entry bound) tr -> writes tr = [].
Proof.
  unfold writes. induction 1 as [|x tr [_ Hx] _ IH]; simpl; [reflexivity|].
  destruct (snd x); simpl in *; try discriminate; exact IH.
Qed.

Section EngineTrace.

Variable w : world.
Variables localPath bucketName s3Path : string.
Variable files : list string.
Variable limit : nat.

Local Abbreviation total := (totalFiles files).
Local Abbreviation step := (step w localPath bucketName s3Path files limit).
Local Abbreviation sched_step := (sched_step w localPath bucketName s3Path files limit).
Local Abbreviation run := (run w localPath bucketName s3Path files limit).
Local Abbreviation resume := (resume w localPath bucketName s3Path files).

Lemma resume_task_events t s t' s' evs :
  resume t s = (t', s', evs) -> Forall (fun ev => task_event ev = true) evs.
Proof.
  destruct t as [i f ph]. unfold_resume. simpl.
  destruct ph as [|body|]; intros Hres.
  - unfold after_headObject, settle, progress, upload_failed in Hres.
    destruct (headObject w bucketName (s3Key w s3Path f)) as [u|err].
    + inversion Hres; subst. repeat constructor.
    + destruct (code_is err "NotFound").
      * destruct (readFileSync w (localFilePath w localPath f));
          inversion Hres; subst; repeat constructor.
      * inversion Hres; subst. repeat constructor.
  - unfold after_upload, settle, progress, upload_failed in Hres.
    destruct (upload w bucketName (s3Key w s3Path f) body);
      inversion Hres; subst; repeat constructor.
  - inversion Hres; subst. constructor.
Qed.

Lemma by_task_entries i evs :
  i < total ->
  Forall (fun ev => task_event ev = true) evs ->
  Forall (task_entry total) (by_task i evs).
Proof.
  intros Hi Hevs. unfold by_task. apply Forall_map.
  eapply Forall_impl; [|exact Hevs]. intros ev Hev. split; [|exact Hev].
  exists i. auto.
Qed.

(** Along a run, the trace holds entries of tasks only, and the queue
    holds files of the list only. *)
Lemma step_task_entries e e' :
  step e e' ->
  Forall (task_entry total) (out e) /\ Forall (fun t => tid t < total) (queue e) ->
  Forall (task_entry total) (out e') /\ Forall (fun t => tid t < total) (queue e').
Proof.
  intros Hstep [Hout Hq]. destruct Hstep as
    [e f t evs Hpc Hnth Hpf | e Hpc Hnth | e q1 t q2 t' s' evs Hpc Hqe Hns Hres
    | e Hpc Hfl | e Hpc Hfl]; cbn [out queue]; auto.
  - assert (Hlt : cursor e < total) by (apply nth_error_Some; congruence).
    unfold processFile in Hpf. inversion Hpf; subst t evs. split.
    + apply Forall_app. split; [exact Hout|].
      apply by_task_entries; [exact Hlt | repeat constructor].
    + apply Forall_app. split; [exact Hq|]. repeat constructor. exact Hlt.
  - rewrite Hqe in Hq. apply Forall_app in Hq. destruct Hq as [H1 H2].
    inversion H2 as [|? ? Ht H2']; subst.
    assert (Htid : tid t' = tid t).
    { unfold_resume_in Hres.
      destruct (at_ t) as [|body|];
        [destruct (after_headObject _ _ _ _ _ _ _) as [[? ?] ?]
        |destruct (after_upload _ _ _ _ _ _ _) as [[? ?] ?] | ];
        inversion Hres; reflexivity. }
    split.
    + apply Forall_app. split; [exact Hout|].
      apply by_task_entries; [exact Ht | now apply resume_task_events in Hres].
    + apply Forall_app. split; [exact H1|]. constructor; [now rewrite Htid | exact H2'].
Qed.

Lemma run_task_entries sched n : Forall (task_entry total) (out (run sched n)).
Proof.
  enough (H : Forall (task_entry total) (out (run sched n))
              /\ Forall (fun t => tid t < total) (queue (run sched n))) by apply H.
  induction n as [|n IH]; [split; constructor|]. simpl.
  destruct (pc (run sched n)) eqn:Hpc;
    try (apply (step_task_entries (run sched n)); [|exact IH];
         apply sched_step_sound; congruence).
  now rewrite sched_step_finished.
Qed.

End EngineTrace.

(** ** The buckets at the end of a run *)

Section Buckets.

Variable w : world.
Variables localPath bucketName s3Path : string.
Variable files : list string.

Local Abbreviation verdict_of := (verdict_of w localPath bucketName s3Path).
Local Abbreviation tally := (tally w localPath bucketName s3Path files).
Local Abbreviation name := (name files).
Local Abbreviation is_uploaded := (is_uploaded w localPath bucketName s3Path files).
Local Abbreviation is_duplicate := (is_duplicate w localPath bucketName s3Path files).
Local Abbreviation is_failed := (is_failed w localPath bucketName s3Path files).
Local Abbreviation failure_of := (failure_of w localPath bucketName s3Path files).

Lemma tally_buckets l :
  uploadedCount (tally l) = List.length (filter is_uploaded l)
  /\ duplicatedFiles (tally l) = map name (filter is_duplicate l)
  /\ notUploadedFiles (tally l) = map failure_of (filter is_failed l).
Proof.
  induction l as [|j l (IHu & IHd & IHf)] using rev_ind; [repeat split|].
  rewrite tally_snoc, !filter_app, !map_app, length_app. cbn [filter].
  assert (Hu : is_uploaded j
               = match verdict_of (name j) with Uploaded => true | _ => false end)
    by reflexivity.
  assert (Hd : is_duplicate j
               = match verdict_of (name j) with Duplicate => true | _ => false end)
    by reflexivity.
  assert (Hf : is_failed j
               = match verdict_of (name j) with Failed _ => true | _ => false end)
    by reflexivity.
  rewrite Hu, Hd, Hf. unfold record_verdict.
  destruct (verdict_of (name j)) eqn:Hv; simpl; rewrite IHu, IHd, IHf, ?app_nil_r;
    repeat split; try lia.
  f_equal. unfold_failure_of. now rewrite Hv.
Qed.

(** Every task has one verdict. *)
Lemma verdicts_partition l :
  Permutation (filter is_uploaded l ++ filter is_duplicate l ++ filter is_failed l) l.
Proof.
  induction l as [|j l IH]; [constructor|]. simpl.
  unfold_verdict_tests.
  destruct (verdict_of (name j)); simpl.
  - now constructor.
  - apply Permutation_sym, Permutation_cons_app, Permutation_sym, IH.
  - apply Permutation_sym. rewrite app_assoc. apply Permutation_cons_app.
    rewrite <- app_assoc. apply Permutation_sym, IH.
Qed.

End Buckets.

(** ** [uploadDirectory] once the scan has succeeded *)

Lemma uploadDirectory_scanned w sched localPath bucketName s3Path cfg files :
  getAWSConfig w = Some cfg ->
  scan w localPath = Ok files ->
  uploadDirectory w sched localPath bucketName s3Path =
    let e := run_all w localPath bucketName s3Path files CONCURRENT_UPLOADS sched in
    {| exited := None;
       trace := by_main (announced localPath bucketName s3Path
                         ++ [Console (LFound (List.length files))])
                ++ out e
                ++ by_main (summary (List.length files) (vars e)
                            ++ reported w localPath (vars e));
       buckets := vars e |}.
Proof.
  intros Hcfg Hscan. unfold uploadDirectory, reported. rewrite Hcfg, Hscan.
  destruct (write_reports w (timestamp w) _) as [written thrown]. reflexivity.
Qed.

Lemma uploadDirectory_aborted w sched localPath bucketName s3Path cfg err :
  getAWSConfig w = Some cfg ->
  scan w localPath = Throw err ->
  uploadDirectory w sched localPath bucketName s3Path =
    {| exited := None;
       trace := by_main (announced localPath bucketName s3Path
                         ++ catch_block localPath err);
       buckets := empty_store |}.
Proof.
  intros Hcfg Hscan. unfold uploadDirectory. now rewrite Hcfg, Hscan.
Qed.

Lemma limit_positive : 0 < CONCURRENT_UPLOADS.
Proof. unfold CONCURRENT_UPLOADS. lia. Qed.

(** The engine of a run, at its end. *)
Lemma run_all_inv w localPath bucketName s3Path files sched :
  let e := run_all w localPath bucketName s3Path files CONCURRENT_UPLOADS sched in
  inv w localPath bucketName s3Path files CONCURRENT_UPLOADS e /\ pc e = Finished.
Proof.
  split.
  - apply inv_run. apply limit_positive.
  - apply run_finishes.
Qed.

Lemma reported_events w localPath s :
  Forall (fun ev => task_event ev = false) (reported w localPath s).
Proof.
  unfold reported, write_reports, write_report, catch_block.
  destruct (duplicatedFiles s); destruct (notUploadedFiles s);
    repeat match goal with
           | |- context [writeFileSync ?a ?b ?c] => destruct (writeFileSync a b c)
           | |- context [code_is ?e ?c] => destruct (code_is e c)
           end; simpl; repeat constructor;
    destruct (code_is _ _); repeat constructor.
Qed.

Lemma no_task_event_trace evs i :
  Forall (fun ev => task_event ev = false) evs ->
  events_of i (by_main evs) = [] /\ finished (by_main evs) = []
  /\ progress_lines (by_main evs) = [] /\ requests (by_main evs) = [].
Proof.
  intros H. split; [apply events_of_by_main|]. split; [apply finished_by_main|].
  induction H as [|ev evs Hev _ [IHp IHr]]; [split; reflexivity|].
  unfold progress_lines, requests in *. simpl.
  destruct ev as [| | | |l]; try discriminate; simpl; auto.
  destruct l; try discriminate; simpl; auto.
Qed.

Lemma closing_events w localPath total s :
  Forall (fun ev => task_event ev = false)
    (summary total s ++ reported w localPath s).
Proof. apply Forall_app. split; [repeat constructor | apply reported_events]. Qed.

(** The trace of a run that got past the scan, seen through the
    projections: only the engine contributes task events. *)
Lemma scanned_run w sched localPath bucketName s3Path cfg files :
  getAWSConfig w = Some cfg ->
  scan w localPath = Ok files ->
  let r := uploadDirectory w sched localPath bucketName s3Path in
  let e := run_all w localPath bucketName s3Path files CONCURRENT_UPLOADS sched in
  exited r = None /\ buckets r = vars e
  /\ (forall i, events_of i (trace r) = events_of i (out e))
  /\ finished (trace r) = finished (out e)
  /\ progress_lines (trace r) = progress_lines (out e)
  /\ requests (trace r) = requests (out e)
  /\ writes (trace r) = filter is_write (reported w localPath (vars e)).
Proof.
  intros Hcfg Hscan r e. unfold r.
  rewrite (uploadDirectory_scanned w sched localPath bucketName s3Path cfg files Hcfg Hscan).
  fold e. cbn [exited buckets trace].
  pose proof (closing_events w localPath (List.length files) (vars e)) as Hclose.
  destruct (no_task_event_trace _ 0 Hclose) as (_ & Hf & Hp & Hr).
  split; [reflexivity|]. split; [reflexivity|]. split; [|split; [|split; [|split]]].
  - intros i. rewrite !events_of_app, !events_of_by_main. now rewrite app_nil_r.
  - rewrite !finished_app, Hf. simpl. now rewrite app_nil_r.
  - rewrite !progress_lines_app, Hp. simpl. now rewrite app_nil_r.
  - rewrite !requests_app, Hr. simpl. now rewrite app_nil_r.
  - rewrite !writes_app, !writes_by_main.
    rewrite (task_entries_no_write (totalFiles files) (out e))
      by apply run_task_entries.
    rewrite filter_app. reflexivity.
Qed.

(** In such a run every file is processed to the end: task [i] runs the
    script of file [i] and prints one progress line. *)
Lemma scanned_run_task w sched localPath bucketName s3Path cfg files i f :
  getAWSConfig w = Some cfg ->
  scan w localPath = Ok files ->
  nth_error files i = Some f ->
  let r := uploadDirectory w sched localPath bucketName s3Path in
  In i (finished (trace r))
  /\ exists n, events_of i (trace r)
               = script w localPath bucketName s3Path f
                 ++ [Console (LProgress n (List.length files))].
Proof.
  intros Hcfg Hscan Hnth r.
  destruct (scanned_run w sched localPath bucketName s3Path cfg files Hcfg Hscan)
    as (_ & _ & Hev & Hfin & _).
  fold r in Hev, Hfin. rewrite Hfin, Hev.
  destruct (run_all_inv w localPath bucketName s3Path files sched) as [Hinv Hpc].
  assert (Hi : In i (finished (out (run_all w localPath bucketName s3Path files
                                      CONCURRENT_UPLOADS sched)))).
  { eapply Permutation_in; [apply Permutation_sym, (finished_all _ _ _ _ _ _ limit_positive _ Hinv Hpc)|].
    apply in_seq. assert (i < List.length files) by (apply nth_error_Some; congruence).
    unfold totalFiles. lia. }
  split; [exact Hi|].
  destruct (inv_done _ _ _ _ _ _ _ Hinv i Hi) as (_ & n & Hn).
  exists n. rewrite Hn. unfold name. now rewrite (nth_error_nth _ _ _ Hnth).
Qed.

(** ** The script at work on the host of [Host] *)

Example timestamp_example : timestamp Host.demo = "2024-05-06T07-08-09-123Z".
Proof. reflexivity. Qed.

Example stringify_names_example :
  stringify_names ["b.txt"; "c d"]
  = "[" +++ nl
    +++ "  " +++ json_string "b.txt" +++ "," +++ nl
    +++ "  " +++ json_string "c d" +++ nl
    +++ "]".
Proof. reflexivity. Qed.

Example json_string_plain :
  json_string "b.txt" = String dquote ("b.txt" +++ String dquote EmptyString).
Proof. reflexivity. Qed.

Example stringify_failures_example :
  stringify_failures [{| file := "c.txt"; error := "AccessDenied" |}]
  = "[" +++ nl
    +++ "  {" +++ nl
    +++ "    " +++ json_string "file" +++ ": " +++ json_string "c.txt" +++ "," +++ nl
    +++ "    " +++ json_string "error" +++ ": " +++ json_string "AccessDenied" +++ nl
    +++ "  }" +++ nl
    +++ "]".
Proof. reflexivity. Qed.

Example json_string_example :
  json_string (String dquote (String backslash (String newline (String (chr 1) "x"))))
  = string_of_list_ascii
      [dquote; backslash; dquote; backslash; backslash; backslash; "n"%char; backslash]
    +++ "u0001x" +++ String dquote EmptyString.
Proof. reflexivity. Qed.

(** [a.txt] is uploaded, [b.txt] is already in the bucket, the write of
    [c.txt] is refused; [sub] is a directory and is left out. *)
Example demo_buckets :
  buckets (uploadDirectory Host.demo Host.fifo "/x/y" "bkt" "photos")
  = {| duplicatedFiles := ["b.txt"];
       notUploadedFiles := [{| file := "c.txt"; error := "AccessDenied" |}];
       uploadedCount := 1;
       processedCount := 3 |}.
Proof. reflexivity. Qed.

Example demo_tasks :
  map snd (filter (fun x => match fst x with Some _ => true | None => false end)
             (trace (uploadDirectory Host.demo Host.shuffled "/x/y" "bkt" "photos")))
  = [HeadObject "bkt" "photos/a.txt";
     HeadObject "bkt" "photos/b.txt";
     HeadObject "bkt" "photos/c.txt";
     Console (LSkipped "b.txt");
     Console (LProgress 1 3);
     ReadFile "/x/y/c.txt";
     Upload "bkt" "photos/c.txt" "CCC";
     Console (LErrorUploading "c.txt" "AccessDenied");
     Console (LProgress 2 3);
     ReadFile "/x/y/a.txt";
     Upload "bkt" "photos/a.txt" "AAA";
     Console (LUploaded "a.txt");
     Console (LProgress 3 3)].
Proof. reflexivity. Qed.

Example demo_missing_credentials :
  uploadDirectory Host.demo_no_credentials Host.fifo "/x/y" "bkt" "photos"
  = {| exited := Some 1;
       trace := by_main [Console LStarting;
                         Console LMissingCredentials;
                         Console LMissingCredentialsHint];
       buckets := empty_store |}.
Proof. reflexivity. Qed.

Example demo_usage :
  exit_code (main Host.demo Host.fifo ["upload"; "/x/y"; "bkt"]) = 1
  /\ exit_code (main Host.demo Host.fifo ["sync"]) = 1
  /\ exit_code (main Host.demo Host.fifo []) = 1
  /\ exit_code (main Host.demo Host.fifo ["test"; "bkt"]) = 0.
Proof. repeat split; reflexivity. Qed.

(** * The claims *)

(** C1.  For every list of candidate files, each file is recorded in
    exactly one of the three buckets: at the end of a run the candidate
    files split into three groups [up], [dup] and [fail], without overlap
    and without omission, such that [uploadedCount] counts [up],
    [duplicatedFiles] lists the names of [dup] and [notUploadedFiles] those
    of [fail]; hence the three sizes add up to the number of candidate
    files. *)
Theorem partition_invariant w sched localPath bucketName s3Path cfg files :
  getAWSConfig w = Some cfg ->
  scan w localPath = Ok files ->
  let r := buckets (uploadDirectory w sched localPath bucketName s3Path) in
  (exists up dup fail : list nat,
      Permutation (up ++ dup ++ fail) (seq 0 (List.length files))
      /\ uploadedCount r = List.length up
      /\ duplicatedFiles r = map (name files) dup
      /\ map file (notUploadedFiles r) = map (name files) fail)
  /\ uploadedCount r + List.length (duplicatedFiles r) + List.length (notUploadedFiles r)
     = List.length files.
Proof.
  intros Hcfg Hscan r.
  destruct (scanned_run w sched localPath bucketName s3Path cfg files Hcfg Hscan)
    as (_ & Hb & _).
  destruct (run_all_inv w localPath bucketName s3Path files sched) as [Hinv Hpc].
  pose proof (finished_all _ _ _ _ _ _ limit_positive _ Hinv Hpc) as Hall.
  pose proof (inv_store _ _ _ _ _ _ _ Hinv) as Hstore.
  unfold r. rewrite Hb, Hstore.
  set (fin := finished (out (run_all w localPath bucketName s3Path files
                               CONCURRENT_UPLOADS sched))) in *.
  destruct (tally_buckets w localPath bucketName s3Path files fin) as (Hu & Hd & Hf).
  pose proof (verdicts_partition w localPath bucketName s3Path files fin) as Hpart.
  assert (Hfiles : map file (map (failure_of w localPath bucketName s3Path files)
                      (filter (is_failed w localPath bucketName s3Path files) fin))
                   = map (name files)
                       (filter (is_failed w localPath bucketName s3Path files) fin)).
  { rewrite map_map. reflexivity. }
  split.
  - exists (filter (is_uploaded w localPath bucketName s3Path files) fin),
           (filter (is_duplicate w localPath bucketName s3Path files) fin),
           (filter (is_failed w localPath bucketName s3Path files) fin).
    split; [now rewrite Hpart|]. rewrite Hu, Hd, Hf. auto.
  - rewrite Hu, Hd, Hf, !length_map.
    apply Permutation_length in Hpart. apply Permutation_length in Hall.
    rewrite !length_app in Hpart. rewrite length_seq in Hall.
    unfold totalFiles in Hall. lia.
Qed.

Lemma partition_invariant_witness :
  getAWSConfig Host.demo = Some ("set", "set", "set")
  /\ scan Host.demo "/x/y" = Ok ["a.txt"; "b.txt"; "c.txt"]
  /\ let r := buckets (uploadDirectory Host.demo Host.shuffled "/x/y" "bkt" "photos") in
     uploadedCount r + List.length (duplicatedFiles r) + List.length (notUploadedFiles r)
     = 3.
Proof.
  split; [reflexivity|]. split; [reflexivity|].
  apply (partition_invariant Host.demo Host.shuffled "/x/y" "bkt" "photos"
           ("set", "set", "set") ["a.txt"; "b.txt"; "c.txt"] eq_refl eq_refl).
Defined.

(** C2.  When the existence check of a task reports that the remote key
    exists, the task records the file as a duplicate and does nothing
    else: its whole activity is the check, the SKIPPED line and its
    progress line; the file name is in [duplicatedFiles]; the task never
    reads the local file and never issues an upload. *)
Theorem duplicate_is_skipped w sched localPath bucketName s3Path cfg files i fileName u :
  getAWSConfig w = Some cfg ->
  scan w localPath = Ok files ->
  nth_error files i = Some fileName ->
  headObject w bucketName (s3Key w s3Path fileName) = Ok u ->
  let r := uploadDirectory w sched localPath bucketName s3Path in
  (exists n, events_of i (trace r)
             = [HeadObject bucketName (s3Key w s3Path fileName);
                Console (LSkipped fileName);
                Console (LProgress n (List.length files))])
  /\ In fileName (duplicatedFiles (buckets r))
  /\ (forall p, ~ In (Some i, ReadFile p) (trace r))
  /\ (forall b k body, ~ In (Some i, Upload b k body) (trace r)).
Proof.
  intros Hcfg Hscan Hnth Hhead r.
  destruct (scanned_run_task w sched localPath bucketName s3Path cfg files i fileName
              Hcfg Hscan Hnth) as (Hfin & n & Hev).
  fold r in Hfin, Hev. unfold script in Hev. rewrite Hhead in Hev. simpl in Hev.
  split; [now exists n|]. split; [|split].
  - destruct (scanned_run w sched localPath bucketName s3Path cfg files Hcfg Hscan)
      as (_ & Hb & _ & Hf & _).
    fold r in Hb, Hf. rewrite Hf in Hfin.
    destruct (run_all_inv w localPath bucketName s3Path files sched) as [Hinv _].
    rewrite Hb, (inv_store _ _ _ _ _ _ _ Hinv).
    destruct (tally_buckets w localPath bucketName s3Path files
                (finished (out (run_all w localPath bucketName s3Path files
                                  CONCURRENT_UPLOADS sched)))) as (_ & -> & _).
    assert (Hname : name files i = fileName)
      by (unfold name; now rewrite (nth_error_nth _ _ _ Hnth)).
    rewrite <- Hname. apply in_map. apply filter_In. split; [exact Hfin|].
    unfold is_duplicate, verdict_of. now rewrite Hname, Hhead.
  - intros p Hin. apply in_events_of in Hin. rewrite Hev in Hin.
    simpl in Hin. intuition discriminate.
  - intros b k body Hin. apply in_events_of in Hin. rewrite Hev in Hin.
    simpl in Hin. intuition discriminate.
Qed.

Lemma duplicate_is_skipped_witness :
  getAWSConfig Host.demo = Some ("set", "set", "set")
  /\ scan Host.demo "/x/y" = Ok ["a.txt"; "b.txt"; "c.txt"]
  /\ nth_error ["a.txt"; "b.txt"; "c.txt"] 1 = Some "b.txt"
  /\ headObject Host.demo "bkt" (s3Key Host.demo "photos" "b.txt") = Ok tt
  /\ let r := uploadDirectory Host.demo Host.fifo "/x/y" "bkt" "photos" in
     In "b.txt" (duplicatedFiles (buckets r))
     /\ (forall p, ~ In (Some 1, ReadFile p) (trace r))
     /\ (forall b k body, ~ In (Some 1, Upload b k body) (trace r)).
Proof.
  split; [reflexivity|]. split; [reflexivity|]. split; [reflexivity|].
  split; [reflexivity|].
  apply (duplicate_is_skipped Host.demo Host.fifo "/x/y" "bkt" "photos"
           ("set", "set", "set") ["a.txt"; "b.txt"; "c.txt"] 1 "b.txt" tt
           eq_refl eq_refl eq_refl eq_refl).
Defined.

Lemma Permutation_filter_length {A} (p : A -> bool) l l' :
  Permutation l l' -> List.length (filter p l) = List.length (filter p l').
Proof.
  induction 1 as [|x l l' _ IH|x y l|l l' l'' _ IH1 _ IH2]; simpl.
  - reflexivity.
  - destruct (p x); simpl; now rewrite IH.
  - destruct (p x), (p y); reflexivity.
  - now rewrite IH1.
Qed.

(** What the buckets hold for file [i] at the end of a run. *)
Lemma verdict_recorded w sched localPath bucketName s3Path cfg files i fileName :
  getAWSConfig w = Some cfg ->
  scan w localPath = Ok files ->
  nth_error files i = Some fileName ->
  let r := uploadDirectory w sched localPath bucketName s3Path in
  match verdict_of w localPath bucketName s3Path fileName with
  | Uploaded => is_uploaded w localPath bucketName s3Path files i = true
  | Duplicate => In fileName (duplicatedFiles (buckets r))
  | Failed msg => In {| file := fileName; error := msg |} (notUploadedFiles (buckets r))
  end.
Proof.
  intros Hcfg Hscan Hnth r.
  destruct (scanned_run_task w sched localPath bucketName s3Path cfg files i fileName
              Hcfg Hscan Hnth) as (Hfin & _).
  destruct (scanned_run w sched localPath bucketName s3Path cfg files Hcfg Hscan)
    as (_ & Hb & _ & Hf & _).
  fold r in Hfin, Hb, Hf. rewrite Hf in Hfin.
  destruct (run_all_inv w localPath bucketName s3Path files sched) as [Hinv _].
  rewrite Hb, (inv_store _ _ _ _ _ _ _ Hinv).
  destruct (tally_buckets w localPath bucketName s3Path files
              (finished (out (run_all w localPath bucketName s3Path files
                                CONCURRENT_UPLOADS sched)))) as (_ & -> & ->).
  assert (Hname : name files i = fileName)
    by (unfold name; now rewrite (nth_error_nth _ _ _ Hnth)).
  destruct (verdict_of w localPath bucketName s3Path fileName) as [| |msg] eqn:Hv.
  - unfold is_uploaded. now rewrite Hname, Hv.
  - rewrite <- Hname. apply in_map, filter_In. split; [exact Hfin|].
    unfold is_duplicate. now rewrite Hname, Hv.
  - replace {| file := fileName; error := msg |}
      with (failure_of w localPath bucketName s3Path files i)
      by (unfold failure_of; now rewrite Hname, Hv).
    apply in_map, filter_In. split; [exact Hfin|].
    unfold is_failed. now rewrite Hname, Hv.
Qed.

(** C3.  When the existence check of a task fails with an error other
    than not-found, the task records a failure whose message says that the
    check failed, and it neither reads the file nor issues the upload.
    A task reads the file or issues the upload only after a not-found
    answer; then a successful write is recorded as an upload, and a failed
    write as a failure carrying the message of the write error. *)
Theorem check_then_upload w sched localPath bucketName s3Path cfg files i fileName :
  getAWSConfig w = Some cfg ->
  scan w localPath = Ok files ->
  nth_error files i = Some fileName ->
  let r := uploadDirectory w sched localPath bucketName s3Path in
  let key := s3Key w s3Path fileName in
  let path := localFilePath w localPath fileName in
  let total := List.length files in
  (forall err,
      headObject w bucketName key = Throw err ->
      code_is err "NotFound" = false ->
      (exists n, events_of i (trace r)
                 = [HeadObject bucketName key;
                    Console (LErrorChecking fileName err);
                    Console (LProgress n total)])
      /\ In {| file := fileName;
               error := "Failed to check S3 status: " +++ code_or_message err |}
            (notUploadedFiles (buckets r)))
  /\ (forall ev,
        In (Some i, ev) (trace r) ->
        (exists p, ev = ReadFile p) \/ (exists b k body, ev = Upload b k body) ->
        exists err, headObject w bucketName key = Throw err
                    /\ code_is err "NotFound" = true)
  /\ (forall err body u,
        headObject w bucketName key = Throw err ->
        code_is err "NotFound" = true ->
        readFileSync w path = Ok body ->
        upload w bucketName key body = Ok u ->
        (exists n, events_of i (trace r)
                   = [HeadObject bucketName key;
                      ReadFile path;
                      Upload bucketName key body;
                      Console (LUploaded fileName);
                      Console (LProgress n total)])
        /\ is_uploaded w localPath bucketName s3Path files i = true)
  /\ (forall err body uploadError,
        headObject w bucketName key = Throw err ->
        code_is err "NotFound" = true ->
        readFileSync w path = Ok body ->
        upload w bucketName key body = Throw uploadError ->
        (exists n, events_of i (trace r)
                   = [HeadObject bucketName key;
                      ReadFile path;
                      Upload bucketName key body;
                      Console (LErrorUploading fileName (message uploadError));
                      Console (LProgress n total)])
        /\ In {| file := fileName; error := message uploadError |}
              (notUploadedFiles (buckets r)))
  /\ uploadedCount (buckets r)
     = List.length (filter (is_uploaded w localPath bucketName s3Path files) (seq 0 total)).
Proof.
  intros Hcfg Hscan Hnth r key path total.
  destruct (scanned_run_task w sched localPath bucketName s3Path cfg files i fileName
              Hcfg Hscan Hnth) as (Hfin & n & Hev).
  pose proof (verdict_recorded w sched localPath bucketName s3Path cfg files i fileName
                Hcfg Hscan Hnth) as Hrec.
  fold r in Hfin, Hev, Hrec. unfold script in Hev. unfold verdict_of in Hrec.
  fold key in Hev, Hrec. fold path in Hev, Hrec. fold total in Hev.
  split; [|split; [|split; [|split]]].
  - intros err Hhead Hnf. rewrite Hhead, Hnf in Hev, Hrec. split; [now exists n | exact Hrec].
  - intros ev Hin Hkind. apply in_events_of in Hin. rewrite Hev in Hin.
    destruct (headObject w bucketName key) as [u|err].
    + simpl in Hin. destruct Hkind as [(p & ->)|(b & k & body & ->)];
        intuition discriminate.
    + destruct (code_is err "NotFound") eqn:Hnf; [now exists err|].
      simpl in Hin. destruct Hkind as [(p & ->)|(b & k & body & ->)];
        intuition discriminate.
  - intros err body u Hhead Hnf Hread Hup.
    rewrite Hhead, Hnf, Hread, Hup in Hev, Hrec. split; [now exists n | exact Hrec].
  - intros err body ue Hhead Hnf Hread Hup.
    rewrite Hhead, Hnf, Hread, Hup in Hev, Hrec. split; [now exists n | exact Hrec].
  - destruct (scanned_run w sched localPath bucketName s3Path cfg files Hcfg Hscan)
      as (_ & Hb & _).
    destruct (run_all_inv w localPath bucketName s3Path files sched) as [Hinv Hpc].
    fold r in Hb. rewrite Hb, (inv_store _ _ _ _ _ _ _ Hinv).
    destruct (tally_buckets w localPath bucketName s3Path files
                (finished (out (run_all w localPath bucketName s3Path files
                                  CONCURRENT_UPLOADS sched)))) as (-> & _).
    apply Permutation_filter_length.
    apply (finished_all _ _ _ _ _ _ limit_positive _ Hinv Hpc).
Qed.

Lemma check_then_upload_witness :
  getAWSConfig Host.demo = Some ("set", "set", "set")
  /\ scan Host.demo "/x/y" = Ok ["a.txt"; "b.txt"; "c.txt"]
  /\ nth_error ["a.txt"; "b.txt"; "c.txt"] 2 = Some "c.txt"
  /\ headObject Host.demo "bkt" (s3Key Host.demo "photos" "c.txt")
     = Throw (Host.s3_error "NotFound")
  /\ code_is (Host.s3_error "NotFound") "NotFound" = true
  /\ readFileSync Host.demo (localFilePath Host.demo "/x/y" "c.txt") = Ok "CCC"
  /\ upload Host.demo "bkt" (s3Key Host.demo "photos" "c.txt") "CCC"
     = Throw (Host.s3_error "AccessDenied")
  /\ In {| file := "c.txt"; error := message (Host.s3_error "AccessDenied") |}
        (notUploadedFiles (buckets (uploadDirectory Host.demo Host.fifo "/x/y" "bkt" "photos"))).
Proof.
  do 7 (split; [reflexivity|]).
  pose proof (check_then_upload Host.demo Host.fifo "/x/y" "bkt" "photos"
                ("set", "set", "set") ["a.txt"; "b.txt"; "c.txt"] 2 "c.txt"
                eq_refl eq_refl eq_refl) as H.
  cbv zeta in H. destruct H as (_ & _ & _ & H & _).
  exact (proj2 (H (Host.s3_error "NotFound") "CCC" (Host.s3_error "AccessDenied")
                  eq_refl eq_refl eq_refl eq_refl)).
Defined.

Lemma reaches_once total :
  0 < total ->
  List.length (filter (reaches total) (map (fun k => LProgress k total) (seq 1 total))) = 1.
Proof.
  destruct total as [|m]; [lia|]. intros _.
  rewrite seq_S, map_app, filter_app, length_app. simpl.
  rewrite Nat.eqb_refl. simpl.
  assert (H : forall l, (forall k, In k l -> k <> S m) ->
                filter (reaches (S m)) (map (fun k => LProgress k (S m)) l) = []).
  { induction l as [|k l IH]; intros Hl; [reflexivity|]. simpl.
    destruct (Nat.eqb_spec k (S m)) as [->|_].
    - exfalso. apply (Hl (S m)); [now left | reflexivity].
    - apply IH. intros k' Hk'. apply Hl. now right. }
  rewrite H; [reflexivity|]. intros k Hk. apply in_seq in Hk. lia.
Qed.

(** C9.  No failure of a task aborts the batch.  Once the scan has
    succeeded, whatever the tasks meet and in whatever order their requests
    settle, the run does not exit; between the "Found" line and the summary
    the trace holds entries of tasks only; every file is processed to the
    end, once, and each task ends with its progress line; the progress
    lines count 1, 2, ..., total in this order, so that the total is
    reached exactly once; and the summary is printed after the tasks: the
    closing line, the total, and the count of each of the three buckets,
    which is the number of files that were uploaded, that were duplicates
    and that failed. *)
Theorem batch_survives_failures w sched localPath bucketName s3Path cfg files :
  getAWSConfig w = Some cfg ->
  scan w localPath = Ok files ->
  let r := uploadDirectory w sched localPath bucketName s3Path in
  let total := List.length files in
  exited r = None
  /\ pc (run_all w localPath bucketName s3Path files CONCURRENT_UPLOADS sched) = Finished
  /\ (exists tasks,
        trace r = by_main (announced localPath bucketName s3Path ++ [Console (LFound total)])
                  ++ tasks
                  ++ by_main ([Console LFinished;
                               Console (LTotal total);
                               Console (LUploadedCount (uploadedCount (buckets r)));
                               Console (LDuplicatesCount
                                          (List.length (duplicatedFiles (buckets r))));
                               Console (LFailedCount
                                          (List.length (notUploadedFiles (buckets r))))]
                              ++ reported w localPath (buckets r))
        /\ Forall (task_entry total) tasks)
  /\ Permutation (finished (trace r)) (seq 0 total)
  /\ (forall i, i < total ->
        exists n, events_of i (trace r)
                  = script w localPath bucketName s3Path (name files i)
                    ++ [Console (LProgress n total)])
  /\ progress_lines (trace r) = map (fun k => LProgress k total) (seq 1 total)
  /\ (0 < total -> List.length (filter (reaches total) (progress_lines (trace r))) = 1)
  /\ processedCount (buckets r) = total
  /\ uploadedCount (buckets r)
     = List.length (filter (is_uploaded w localPath bucketName s3Path files) (seq 0 total))
  /\ List.length (duplicatedFiles (buckets r))
     = List.length (filter (is_duplicate w localPath bucketName s3Path files) (seq 0 total))
  /\ List.length (notUploadedFiles (buckets r))
     = List.length (filter (is_failed w localPath bucketName s3Path files) (seq 0 total))
  /\ uploadedCount (buckets r) + List.length (duplicatedFiles (buckets r))
     + List.length (notUploadedFiles (buckets r)) = total.
Proof.
  intros Hcfg Hscan r total.
  destruct (scanned_run w sched localPath bucketName s3Path cfg files Hcfg Hscan)
    as (Hex & Hb & Hev & Hfin & Hpl & _).
  destruct (run_all_inv w localPath bucketName s3Path files sched) as [Hinv Hpc].
  pose proof (finished_all _ _ _ _ _ _ limit_positive _ Hinv Hpc) as Hall.
  fold r in Hex, Hb, Hev, Hfin, Hpl.
  assert (Hlen : List.length (finished (out (run_all w localPath bucketName s3Path files
                                               CONCURRENT_UPLOADS sched))) = total).
  { apply Permutation_length in Hall. now rewrite length_seq in Hall. }
  assert (Hlines : progress_lines (trace r)
                   = map (fun k => LProgress k total) (seq 1 total)).
  { rewrite Hpl, (inv_progress _ _ _ _ _ _ _ Hinv), Hlen. reflexivity. }
  destruct (tally_buckets w localPath bucketName s3Path files
              (finished (out (run_all w localPath bucketName s3Path files
                                CONCURRENT_UPLOADS sched)))) as (Hu & Hd & Hf).
  rewrite <- (inv_store _ _ _ _ _ _ _ Hinv), <- Hb in Hu, Hd, Hf.
  assert (Hup : uploadedCount (buckets r)
                = List.length (filter (is_uploaded w localPath bucketName s3Path files)
                                 (seq 0 total))).
  { rewrite Hu. apply Permutation_filter_length, Hall. }
  assert (Hdup : List.length (duplicatedFiles (buckets r))
                 = List.length (filter (is_duplicate w localPath bucketName s3Path files)
                                  (seq 0 total))).
  { rewrite Hd, length_map. apply Permutation_filter_length, Hall. }
  assert (Hfail : List.length (notUploadedFiles (buckets r))
                  = List.length (filter (is_failed w localPath bucketName s3Path files)
                                   (seq 0 total))).
  { rewrite Hf, length_map. apply Permutation_filter_length, Hall. }
  split; [exact Hex|]. split; [exact Hpc|].
  split; [|split; [|split; [|split; [|split; [|split]]]]].
  - exists (out (run_all w localPath bucketName s3Path files CONCURRENT_UPLOADS sched)).
    split; [|apply run_task_entries].
    unfold r at 1.
    rewrite (uploadDirectory_scanned w sched localPath bucketName s3Path cfg files Hcfg Hscan).
    cbn [trace]. rewrite Hb. reflexivity.
  - rewrite Hfin. exact Hall.
  - intros i Hi.
    destruct (nth_error files i) as [f|] eqn:Hnth;
      [|apply nth_error_None in Hnth; unfold total in Hi; lia].
    destruct (scanned_run_task w sched localPath bucketName s3Path cfg files i f
                Hcfg Hscan Hnth) as (_ & n & Hn).
    exists n. unfold name. now rewrite (nth_error_nth _ _ _ Hnth).
  - exact Hlines.
  - intros Hpos. rewrite Hlines. now apply reaches_once.
  - rewrite Hb, (inv_store _ _ _ _ _ _ _ Hinv), tally_processedCount. exact Hlen.
  - split; [exact Hup|]. split; [exact Hdup|]. split; [exact Hfail|].
    rewrite Hup, Hdup, Hfail.
    pose proof (verdicts_partition w localPath bucketName s3Path files (seq 0 total))
      as Hpart.
    apply Permutation_length in Hpart. rewrite !length_app, length_seq in Hpart. lia.
Qed.

Lemma batch_survives_failures_witness :
  getAWSConfig Host.demo = Some ("set", "set", "set")
  /\ scan Host.demo "/x/y" = Ok ["a.txt"; "b.txt"; "c.txt"]
  /\ 0 < 3
  /\ (let r := uploadDirectory Host.demo Host.shuffled "/x/y" "bkt" "photos" in
      progress_lines (trace r) = [LProgress 1 3; LProgress 2 3; LProgress 3 3]
      /\ List.length (filter (reaches 3) (progress_lines (trace r))) = 1
      /\ exists tasks,
           trace r = by_main (announced "/x/y" "bkt" "photos" ++ [Console (LFound 3)])
                     ++ tasks
                     ++ by_main ([Console LFinished;
                                  Console (LTotal 3);
                                  Console (LUploadedCount 1);
                                  Console (LDuplicatesCount 1);
                                  Console (LFailedCount 1)]
                                 ++ reported Host.demo "/x/y" (buckets r))).
Proof.
  split; [reflexivity|]. split; [reflexivity|]. split; [lia|].
  pose proof (batch_survives_failures Host.demo Host.shuffled "/x/y" "bkt" "photos"
                ("set", "set", "set") ["a.txt"; "b.txt"; "c.txt"] eq_refl eq_refl) as H.
  cbv zeta in H. destruct H as (_ & _ & (tasks & Htr & _) & _ & _ & Hlines & Honce & _).
  split; [exact Hlines|]. split; [exact (Honce (Nat.lt_0_succ 2))|].
  exists tasks. etransitivity; [exact Htr|]. vm_compute. reflexivity.
Defined.

(** ** Tasks in flight, read off the trace *)




(** ** Reports *)

Lemma replace_chars_length hit by_ s :
  String.length (replace_chars hit by_ s) = String.length s.
Proof. induction s as [|c s IH]; simpl; [reflexivity | now rewrite IH]. Qed.

Lemma replace_chars_get hit by_ s k :
  String.get k (replace_chars hit by_ s)
  = option_map (fun c => if hit c then by_ else c) (String.get k s).
Proof.
  revert k. induction s as [|c s IH]; intros k; simpl; [reflexivity|].
  destruct k as [|k]; [reflexivity | apply IH].
Qed.

Lemma replace_chars_occurs hit by_ c s :
  hit c = true -> by_ <> c -> occurs c (replace_chars hit by_ s) = false.
Proof.
  intros Hhit Hne. induction s as [|d s IH]; simpl; [reflexivity|].
  rewrite IH, orb_false_r. apply Ascii.eqb_neq.
  destruct (hit d) eqn:Hd; [exact Hne|]. intros ->. congruence.
Qed.


Lemma append_assoc (a b c : string) : (a +++ b) +++ c = a +++ (b +++ c).
Proof. induction a as [|x a IH]; simpl; [reflexivity | now rewrite IH]. Qed.

Lemma json_items_cons indent x y items :
  json_items indent (x :: y :: items)
  = indent +++ x +++ "," +++ nl +++ json_items indent (y :: items).
Proof. reflexivity. Qed.









(** ** A directory without regular files *)

Lemma filter_files_none w localPath entries :
  (forall x, In x entries -> statSync_isFile w (path_join w localPath x) = Ok false) ->
  filter_files w localPath entries = Ok [].
Proof.
  induction entries as [|x entries IH]; intros H; simpl; [reflexivity|].
  rewrite (H x) by now left. rewrite IH; [reflexivity|].
  intros y Hy. apply H. now right.
Qed.

Lemma run_all_nil w localPath bucketName s3Path limit sched :
  run_all w localPath bucketName s3Path [] limit sched
  = {| pc := Finished; cursor := 0; queue := []; vars := empty_store; out := [] |}.
Proof. reflexivity. Qed.

Lemma uploadDirectory_idle w sched localPath bucketName s3Path cfg :
  getAWSConfig w = Some cfg ->
  scan w localPath = Ok [] ->
  uploadDirectory w sched localPath bucketName s3Path
  = {| exited := None;
       trace := idle_trace localPath bucketName s3Path;
       buckets := empty_store |}.
Proof.
  intros Hcfg Hscan.
  rewrite (uploadDirectory_scanned w sched localPath bucketName s3Path cfg [] Hcfg Hscan).
  reflexivity.
Qed.

(** C10, as stated, fails.  [/x/ghosts] exists and holds no regular
    file: its only entry is a link whose target is gone.  [statSync] throws
    on that entry, the scan is abandoned and the run ends in the outer
    [catch] block, without the "Found" line and without the summary that a
    run over the empty directory [/x/empty] prints. *)
Lemma ghost_entry_aborts_the_run :
  getAWSConfig Faults.ghost_only = Some ("set", "set", "set")
  /\ readdirSync Faults.ghost_only "/x/ghosts" = Ok ["ghost"]
  /\ filter (is_regular Faults.ghost_only "/x/ghosts") ["ghost"] = []
  /\ statSync_isFile Faults.ghost_only (path_join Faults.ghost_only "/x/ghosts" "ghost")
     = Throw (Host.errno "ENOENT" "no such file or directory, stat" "/x/ghosts/ghost")
  /\ trace (uploadDirectory Faults.ghost_only Host.fifo "/x/ghosts" "bkt" "photos")
     = by_main (announced "/x/ghosts" "bkt" "photos"
                ++ [Console (LUnexpected
                      "ENOENT: no such file or directory, stat '/x/ghosts/ghost'");
                    Console (LDirectoryNotFound "/x/ghosts")])
  /\ ~ In (None, Console LFinished)
         (trace (uploadDirectory Faults.ghost_only Host.fifo "/x/ghosts" "bkt" "photos"))
  /\ readdirSync Faults.ghost_only "/x/empty" = Ok []
  /\ trace (uploadDirectory Faults.ghost_only Host.fifo "/x/empty" "bkt" "photos")
     = by_main (announced "/x/empty" "bkt" "photos"
                ++ [Console (LFound 0);
                    Console LFinished;
                    Console (LTotal 0);
                    Console (LUploadedCount 0);
                    Console (LDuplicatesCount 0);
                    Console (LFailedCount 0)]).
Proof.
  split; [reflexivity|]. split; [reflexivity|]. split; [reflexivity|].
  split; [reflexivity|]. split; [reflexivity|].
  split; [cbv; intuition discriminate|]. split; reflexivity.
Qed.

(** C10, amended.  When the scanned directory exists, [statSync] succeeds
    on every entry and none of the entries is a regular file (for example
    the directory holds only subdirectories), the run completes normally:
    it sends no request to the bucket, prints a summary with zero in every
    bucket and writes no report file; its trace and its result are those
    of a run over an empty directory. *)
Theorem no_regular_file w sched localPath bucketName s3Path cfg entries :
  getAWSConfig w = Some cfg ->
  readdirSync w localPath = Ok entries ->
  (forall x, In x entries -> statSync_isFile w (path_join w localPath x) = Ok false) ->
  let r := uploadDirectory w sched localPath bucketName s3Path in
  exited r = None
  /\ buckets r = empty_store
  /\ trace r = idle_trace localPath bucketName s3Path
  /\ requests (trace r) = []
  /\ writes (trace r) = []
  /\ In (None, Console (LUploadedCount 0)) (trace r)
  /\ In (None, Console (LDuplicatesCount 0)) (trace r)
  /\ In (None, Console (LFailedCount 0)) (trace r)
  /\ (forall w' sched' cfg',
        getAWSConfig w' = Some cfg' ->
        readdirSync w' localPath = Ok [] ->
        uploadDirectory w' sched' localPath bucketName s3Path = r)
  /\ (forall w' sched' cfg' localPath' bucketName' s3Path',
        getAWSConfig w' = Some cfg' ->
        readdirSync w' localPath' = Ok [] ->
        let r' := uploadDirectory w' sched' localPath' bucketName' s3Path' in
        writes (trace r') = writes (trace r)
        /\ requests (trace r') = requests (trace r)
        /\ buckets r' = buckets r
        /\ exited r' = exited r).
Proof.
  intros Hcfg Hdir Hstat r.
  assert (Hscan : scan w localPath = Ok []).
  { unfold scan. rewrite Hdir. now apply filter_files_none. }
  assert (Hr : r = {| exited := None;
                      trace := idle_trace localPath bucketName s3Path;
                      buckets := empty_store |})
    by (now apply (uploadDirectory_idle w sched localPath bucketName s3Path cfg)).
  rewrite Hr. cbn [exited buckets trace].
  do 5 (split; [reflexivity|]).
  split; [simpl; tauto|]. split; [simpl; tauto|]. split; [simpl; tauto|].
  split.
  - intros w' sched' cfg' Hcfg' Hdir'.
    apply (uploadDirectory_idle w' sched' localPath bucketName s3Path cfg' Hcfg').
    unfold scan. now rewrite Hdir'.
  - intros w' sched' cfg' localPath' bucketName' s3Path' Hcfg' Hdir'.
    assert (Hscan' : scan w' localPath' = Ok []) by (unfold scan; now rewrite Hdir').
    rewrite (uploadDirectory_idle w' sched' localPath' bucketName' s3Path' cfg'
               Hcfg' Hscan').
    repeat split.
Qed.

Lemma no_regular_file_witness :
  getAWSConfig Host.demo = Some ("set", "set", "set")
  /\ readdirSync Host.demo "/x/dirs" = Ok ["d1"; "d2"]
  /\ (forall x, In x ["d1"; "d2"] ->
        statSync_isFile Host.demo (path_join Host.demo "/x/dirs" x) = Ok false)
  /\ readdirSync Host.demo "/x/empty" = Ok []
  /\ (let r := uploadDirectory Host.demo Host.fifo "/x/dirs" "bkt" "photos" in
      let r' := uploadDirectory Host.demo Host.shuffled "/x/empty" "bkt" "photos" in
      writes (trace r') = writes (trace r)
      /\ requests (trace r') = requests (trace r)
      /\ buckets r' = buckets r
      /\ exited r' = exited r).
Proof.
  assert (Hstat : forall x, In x ["d1"; "d2"] ->
            statSync_isFile Host.demo (path_join Host.demo "/x/dirs" x) = Ok false).
  { intros x [<-|[<-|[]]]; reflexivity. }
  split; [reflexivity|]. split; [reflexivity|]. split; [exact Hstat|].
  split; [reflexivity|].
  pose proof (no_regular_file Host.demo Host.fifo "/x/dirs" "bkt" "photos"
                ("set", "set", "set") ["d1"; "d2"] eq_refl eq_refl Hstat) as H.
  cbv zeta in H. destruct H as (_ & _ & _ & _ & _ & _ & _ & _ & _ & Hsame).
  exact (Hsame Host.demo Host.shuffled ("set", "set", "set") "/x/empty" "bkt" "photos"
           eq_refl eq_refl).
Defined.

(** ** Remote keys *)

Lemma segments_plain is_sep s :
  has_char is_sep s = false -> NodePath.segments is_sep s = [s].
Proof.
  induction s as [|c s IH]; simpl; [reflexivity|].
  intros H. apply orb_false_elim in H. destruct H as [Hc Hs].
  now rewrite Hc, IH.
Qed.

Lemma segments_append is_sep a sep b :
  has_char is_sep a = false -> is_sep sep = true ->
  NodePath.segments is_sep (a +++ String sep b) = a :: NodePath.segments is_sep b.
Proof.
  intros Ha Hsep. induction a as [|c a IH]; simpl.
  - now rewrite Hsep.
  - simpl in Ha. apply orb_false_elim in Ha. destruct Ha as [Hc Ha].
    now rewrite Hc, IH.
Qed.

Lemma last_is_plain is_sep s : has_char is_sep s = false -> NodePath.last_is is_sep s = false.
Proof.
  induction s as [|c s IH]; simpl; [reflexivity|].
  intros H. apply orb_false_elim in H. destruct H as [Hc Hs].
  destruct s; [exact Hc | now apply IH].
Qed.

Lemma last_is_append is_sep a c b :
  NodePath.last_is is_sep (a +++ String c b) = NodePath.last_is is_sep (String c b).
Proof.
  induction a as [|d a IH]; [reflexivity|].
  change (String d a +++ String c b) with (String d (a +++ String c b)).
  cbn [NodePath.last_is]. rewrite IH.
  destruct a; reflexivity.
Qed.

Lemma has_char_weaken (p q : ascii -> bool) s :
  (forall c, p c = true -> q c = true) -> has_char q s = false -> has_char p s = false.
Proof.
  intros Hpq. induction s as [|c s IH]; simpl; [reflexivity|].
  intros H. apply orb_false_elim in H. destruct H as [Hc Hs].
  rewrite IH by assumption. destruct (p c) eqn:Hp; [|reflexivity].
  apply Hpq in Hp. congruence.
Qed.

Lemma plain_spec s :
  plain s = true ->
  String.eqb s EmptyString = false /\ String.eqb s "." = false
  /\ String.eqb s ".." = false /\ has_char is_separator s = false.
Proof.
  unfold plain. intros H.
  apply andb_prop in H. destruct H as [H H4].
  apply andb_prop in H. destruct H as [H H3].
  apply andb_prop in H. destruct H as [H1 H2].
  apply negb_true_iff in H1, H2, H3, H4. auto.
Qed.

(** On a host whose separators are among [/] and [\], joining two plain
    segments puts the host separator between them. *)
Lemma join_plain is_sep sep a b :
  (forall c, is_sep c = true -> is_separator c = true) ->
  is_sep sep = true ->
  plain a = true -> plain b = true ->
  NodePath.join is_sep sep a b = a +++ String sep b.
Proof.
  intros Hsub Hsep Ha Hb.
  apply plain_spec in Ha. destruct Ha as (Ha0 & Ha1 & Ha2 & Hsa).
  apply plain_spec in Hb. destruct Hb as (Hb0 & Hb1 & Hb2 & Hsb).
  assert (Hca : has_char is_sep a = false) by (now apply (has_char_weaken _ is_separator)).
  assert (Hcb : has_char is_sep b = false) by (now apply (has_char_weaken _ is_separator)).
  assert (Hbody : NodePath.normalizeString is_sep sep true (a +++ String sep b)
                  = a +++ String sep b).
  { unfold NodePath.normalizeString.
    rewrite segments_append, segments_plain by assumption.
    cbn [fold_left]. unfold NodePath.push_segment at 2.
    rewrite Ha0, Ha1, Ha2. cbn [orb].
    unfold NodePath.push_segment.
    rewrite Hb0, Hb1, Hb2. cbn [orb rev app]. reflexivity. }
  destruct a as [|ca a]; [discriminate|]. destruct b as [|cb b]; [discriminate|].
  assert (Hfirst : is_sep ca = false).
  { simpl in Hca. now apply orb_false_elim in Hca. }
  assert (Hlast : NodePath.last_is is_sep (String ca a +++ String sep (String cb b)) = false).
  { rewrite last_is_append.
    change (NodePath.last_is is_sep (String sep (String cb b)))
      with (NodePath.last_is is_sep (String cb b)).
    now apply last_is_plain. }
  unfold NodePath.join, NodePath.normalize.
  change (NodePath.first_is is_sep (String ca a +++ String sep (String cb b)))
    with (is_sep ca).
  rewrite Hfirst, Hlast. cbn [negb]. rewrite Hbody. reflexivity.
Qed.

Lemma to_forward_slashes_plain s :
  has_char is_separator s = false -> to_forward_slashes s = s.
Proof.
  unfold to_forward_slashes. induction s as [|c s IH]; simpl; [reflexivity|].
  intros H. apply orb_false_elim in H. destruct H as [Hc Hs].
  unfold is_separator in Hc. apply orb_false_elim in Hc. destruct Hc as [_ Hc].
  now rewrite Hc, IH.
Qed.

Lemma to_forward_slashes_append a b :
  to_forward_slashes (a +++ b) = to_forward_slashes a +++ to_forward_slashes b.
Proof.
  unfold to_forward_slashes. induction a as [|c a IH]; simpl; [reflexivity|].
  now rewrite IH.
Qed.

Lemma script_requests w localPath bucketName s3Path fileName ev :
  In ev (script w localPath bucketName s3Path fileName) ->
  match ev with
  | HeadObject b k => b = bucketName /\ k = s3Key w s3Path fileName
  | Upload b k _ => b = bucketName /\ k = s3Key w s3Path fileName
  | _ => True
  end.
Proof.
  unfold script. intros [<-|Hin]; [auto|].
  destruct (headObject w bucketName (s3Key w s3Path fileName)) as [u|err].
  - destruct Hin as [<-|[]]. exact I.
  - destruct (code_is err "NotFound").
    + destruct Hin as [<-|Hin]; [exact I|].
      destruct (readFileSync w (localFilePath w localPath fileName)) as [body|ue].
      * destruct Hin as [<-|[<-|[]]]; [auto|].
        now destruct (upload w bucketName (s3Key w s3Path fileName) body).
      * destruct Hin as [<-|[]]. exact I.
    + destruct Hin as [<-|[]]. exact I.
Qed.

Lemma so_far_requests w localPath bucketName s3Path fileName ph ev :
  ph <> Settled ->
  In ev (so_far w localPath bucketName s3Path fileName ph) ->
  match ev with
  | HeadObject b k => b = bucketName /\ k = s3Key w s3Path fileName
  | Upload b k _ => b = bucketName /\ k = s3Key w s3Path fileName
  | _ => True
  end.
Proof.
  intros Hph. destruct ph as [|body|]; [| |congruence]; simpl.
  - intros [<-|[]]. auto.
  - intros [<-|[<-|[<-|[]]]]; auto.
Qed.

(** C7.  The remote key of a file is the host's join of the destination
    prefix and the file name in which every backslash has become a forward
    slash: it has no backslash, and it agrees with the join everywhere
    else.  On a POSIX host and on a Windows host alike, a plain prefix and
    a plain file name give [prefix/name]; in particular [a.txt] under
    [photos] gets [photos/a.txt].  Every request of a run carries the key
    of its file. *)
Theorem remote_key_forward_slashes w s3Path fileName :
  let joined := path_join w s3Path fileName in
  let key := s3Key w s3Path fileName in
  occurs backslash key = false
  /\ String.length key = String.length joined
  /\ (forall k, String.get k key
                = option_map (fun c => if is_chr 92 c then slash else c)
                    (String.get k joined))
  /\ (path_join w = NodePath.posix_join \/ path_join w = NodePath.win32_join ->
      plain s3Path = true -> plain fileName = true ->
      key = s3Path +++ "/" +++ fileName)
  /\ s3Key Host.demo "photos" "a.txt" = "photos/a.txt"
  /\ s3Key (on_win32 Host.demo) "photos" "a.txt" = "photos/a.txt"
  /\ (forall localPath bucketName files sched n i ev,
        In (Some i, ev)
           (out (run w localPath bucketName s3Path files CONCURRENT_UPLOADS sched n)) ->
        match ev with
        | HeadObject b k => b = bucketName /\ k = s3Key w s3Path (name files i)
        | Upload b k _ => b = bucketName /\ k = s3Key w s3Path (name files i)
        | _ => True
        end).
Proof.
  intros joined key. unfold key, s3Key, to_forward_slashes. fold joined.
  split; [apply replace_chars_occurs; [reflexivity | discriminate]|].
  split; [apply replace_chars_length|].
  split; [intros k; apply replace_chars_get|].
  split; [|split; [reflexivity|split; [reflexivity|]]].
  - intros Hhost Hp Hf. unfold joined.
    assert (Hjoin : forall sep, sep = slash \/ sep = backslash ->
              replace_chars (is_chr 92) slash (s3Path +++ String sep fileName)
              = s3Path +++ "/" +++ fileName).
    { intros sep Hsep. fold (to_forward_slashes (s3Path +++ String sep fileName)).
      rewrite to_forward_slashes_append.
      apply plain_spec in Hp. destruct Hp as (_ & _ & _ & Hp).
      apply plain_spec in Hf. destruct Hf as (_ & _ & _ & Hf).
      rewrite (to_forward_slashes_plain s3Path Hp).
      change (to_forward_slashes (String sep fileName))
        with (String (if is_chr 92 sep then slash else sep) (to_forward_slashes fileName)).
      rewrite (to_forward_slashes_plain fileName Hf).
      destruct Hsep as [-> | ->]; reflexivity. }
    destruct Hhost as [-> | ->].
    + unfold NodePath.posix_join. rewrite join_plain; auto.
      intros c Hc. unfold is_separator. now rewrite Hc.
    + unfold NodePath.win32_join. rewrite join_plain; auto.
  - intros localPath bucketName files sched n i ev Hin.
    apply in_events_of in Hin.
    pose proof (inv_run w localPath bucketName s3Path files CONCURRENT_UPLOADS
                  limit_positive sched n) as Hinv.
    destruct (events_of_cases _ _ _ _ _ _ limit_positive _ i Hinv)
      as [Hnil | [(ph & Hph & _ & Hev) | (_ & m & Hev)]]; rewrite ?Hnil, ?Hev in Hin.
    + destruct Hin.
    + now apply (so_far_requests w localPath bucketName s3Path (name files i) ph).
    + apply in_app_or in Hin. destruct Hin as [Hin|[<-|[]]]; [|exact I].
      now apply (script_requests w localPath bucketName s3Path (name files i)).
Qed.

Lemma remote_key_forward_slashes_witness :
  (path_join Host.demo = NodePath.posix_join
   \/ path_join Host.demo = NodePath.win32_join)
  /\ plain "photos" = true
  /\ plain "a.txt" = true
  /\ s3Key Host.demo "photos" "a.txt" = "photos" +++ "/" +++ "a.txt".
Proof.
  split; [left; reflexivity|]. split; [reflexivity|]. split; [reflexivity|].
  pose proof (remote_key_forward_slashes Host.demo "photos" "a.txt") as H.
  cbv zeta in H. destruct H as (_ & _ & _ & H & _).
  apply H; [left; reflexivity | reflexivity | reflexivity].
Defined.

(** ** Exit codes and the outer [catch] block *)

(** C4, as stated, fails: the scan of a missing directory throws, the
    outer [catch] block prints the error, [uploadDirectory] returns
    normally and the process exits with code 0. *)
Lemma exit_code_after_failed_scan :
  scan Host.demo "/x/none"
  = Throw (Host.errno "ENOENT" "no such file or directory, scandir" "/x/none")
  /\ exited (main Host.demo Host.fifo ["upload"; "/x/none"; "bkt"; "photos"]) = None
  /\ exit_code (main Host.demo Host.fifo ["upload"; "/x/none"; "bkt"; "photos"]) = 0.
Proof. repeat split; reflexivity. Qed.

(** C4, amended.  The upload command exits with code 1 when it is not
    given exactly three arguments or when the credentials are missing, and
    with code 0 in every other case: whatever happens to the tasks, and
    also when the enumeration of the local directory fails. *)
Theorem upload_exit_code w sched rest :
  exit_code (main w sched ("upload" :: rest))
  = match rest, getAWSConfig w with
    | [_; _; _], Some _ => 0
    | _, _ => 1
    end.
Proof.
  unfold main. cbn [String.eqb Ascii.eqb Bool.eqb].
  change (String.eqb "upload" "test") with false.
  change (String.eqb "upload" "upload") with true. cbv iota.
  destruct rest as [|a [|b [|c [|d rest]]]]; try reflexivity;
    try (destruct (getAWSConfig w); reflexivity).
  unfold uploadDirectory.
  destruct (getAWSConfig w) as [cfg|]; [|reflexivity].
  destruct (scan w a) as [files|err]; [|reflexivity].
  now destruct (write_reports w (timestamp w) _).
Qed.

(** C5, as stated, fails: when the local path is a regular file,
    [readdirSync] throws [ENOTDIR] and the caller prints the general line
    only, without the diagnostic reserved to [ENOENT]. *)
Lemma not_a_directory_is_not_singled_out :
  Host.demo_tree "/x/file" = Some (Host.Regular "data")
  /\ readdirSync Host.demo "/x/file"
     = Throw (Host.errno "ENOTDIR" "not a directory, scandir" "/x/file")
  /\ trace (uploadDirectory Host.demo Host.fifo "/x/file" "bkt" "photos")
     = by_main (announced "/x/file" "bkt" "photos"
                ++ [Console (LUnexpected "ENOTDIR: not a directory, scandir '/x/file'")])
  /\ ~ In (None, Console (LDirectoryNotFound "/x/file"))
         (trace (uploadDirectory Host.demo Host.fifo "/x/file" "bkt" "photos")).
Proof.
  split; [reflexivity|]. split; [reflexivity|]. split; [reflexivity|].
  cbv. intuition discriminate.
Qed.

Lemma code_is_spec err c : code_is err c = true <-> code err = Some c.
Proof.
  unfold code_is. destruct (code err) as [c'|]; [|split; discriminate].
  rewrite String.eqb_eq. split; congruence.
Qed.

(** C5, amended.  When [readdirSync] fails on the local path, the run
    aborts before any task starts: no request is sent, no report file is
    written, the buckets stay empty, and the caller prints the message of
    the error.  The diagnostic "directory not found" follows exactly when
    the code of the error is [ENOENT], that is for a path that does not
    exist; a path that is not a directory ([ENOTDIR]) is reported like any
    other failure. *)
Theorem failed_enumeration w sched localPath bucketName s3Path cfg err :
  getAWSConfig w = Some cfg ->
  readdirSync w localPath = Throw err ->
  let r := uploadDirectory w sched localPath bucketName s3Path in
  exited r = None
  /\ buckets r = empty_store
  /\ trace r = by_main (announced localPath bucketName s3Path
                        ++ Console (LUnexpected (message err))
                           :: (if code_is err "ENOENT"
                               then [Console (LDirectoryNotFound localPath)]
                               else []))
  /\ requests (trace r) = []
  /\ writes (trace r) = []
  /\ (forall i, events_of i (trace r) = [])
  /\ (In (None, Console (LDirectoryNotFound localPath)) (trace r)
      <-> code err = Some "ENOENT").
Proof.
  intros Hcfg Hdir r.
  assert (Hscan : scan w localPath = Throw err) by (unfold scan; now rewrite Hdir).
  assert (Hr : r = {| exited := None;
                      trace := by_main (announced localPath bucketName s3Path
                                        ++ catch_block localPath err);
                      buckets := empty_store |})
    by (now apply (uploadDirectory_aborted w sched localPath bucketName s3Path cfg)).
  rewrite Hr. cbn [exited buckets trace]. unfold catch_block.
  split; [reflexivity|]. split; [reflexivity|]. split; [reflexivity|].
  split; [|split; [|split]].
  - rewrite requests_by_main. now destruct (code_is err "ENOENT").
  - rewrite writes_by_main. now destruct (code_is err "ENOENT").
  - intros i. apply events_of_by_main.
  - rewrite <- code_is_spec. destruct (code_is err "ENOENT"); simpl; split.
    + reflexivity.
    + intros _. tauto.
    + intuition discriminate.
    + discriminate.
Qed.

Lemma failed_enumeration_witness :
  getAWSConfig Host.demo = Some ("set", "set", "set")
  /\ readdirSync Host.demo "/x/none"
     = Throw (Host.errno "ENOENT" "no such file or directory, scandir" "/x/none")
  /\ trace (uploadDirectory Host.demo Host.fifo "/x/none" "bkt" "photos")
     = by_main (announced "/x/none" "bkt" "photos"
                ++ [Console (LUnexpected
                      "ENOENT: no such file or directory, scandir '/x/none'");
                    Console (LDirectoryNotFound "/x/none")]).
Proof.
  split; [reflexivity|]. split; [reflexivity|].
  apply (failed_enumeration Host.demo Host.fifo "/x/none" "bkt" "photos"
           ("set", "set", "set")
           (Host.errno "ENOENT" "no such file or directory, scandir" "/x/none")
           eq_refl eq_refl).
Defined.

(** * Further properties *)

(** ** Credentials ([getAWSConfig], lines 10-28) *)

Lemma getAWSConfig_none w v :
  In v credential_names -> truthy (env w v) = false -> getAWSConfig w = None.
Proof.
  unfold credential_names, getAWSConfig.
  intros [<-|[<-|[<-|[]]]] H;
    destruct (env w "AWS_REGION") as [r|];
    destruct (env w "AWS_ACCESS_KEY_ID") as [k|];
    destruct (env w "AWS_SECRET_ACCESS_KEY") as [s|];
    try reflexivity; rewrite H; rewrite ?andb_false_r; reflexivity.
Qed.

Lemma getAWSConfig_some w r k s :
  getAWSConfig w = Some (r, k, s) <->
  (env w "AWS_REGION" = Some r /\ env w "AWS_ACCESS_KEY_ID" = Some k
   /\ env w "AWS_SECRET_ACCESS_KEY" = Some s
   /\ r <> EmptyString /\ k <> EmptyString /\ s <> EmptyString).
Proof.
  unfold getAWSConfig.
  destruct (env w "AWS_REGION") as [r'|];
    destruct (env w "AWS_ACCESS_KEY_ID") as [k'|];
    destruct (env w "AWS_SECRET_ACCESS_KEY") as [s'|];
    try (split; [discriminate | intros (H1 & H2 & H3 & _); discriminate]).
  destruct r' as [|cr r']; destruct k' as [|ck k']; destruct s' as [|cs s']; simpl;
    split;
    try discriminate;
    try (intros (H1 & H2 & H3 & Hr & Hk & Hs);
         inversion H1; inversion H2; inversion H3; subst; congruence).
  intros H. inversion H; subst. repeat split; discriminate.
Qed.

(** X1.  When one of the three variables is missing from the environment,
    or empty, both commands stop at once: they print the two lines about
    the [.env] file and call [process.exit(1)], before the directory is
    read and before anything is sent to the bucket. *)
Theorem missing_credentials_stop w sched localPath bucketName s3Path v :
  In v credential_names ->
  truthy (env w v) = false ->
  uploadDirectory w sched localPath bucketName s3Path
  = {| exited := Some 1;
       trace := by_main [Console LStarting;
                         Console LMissingCredentials;
                         Console LMissingCredentialsHint];
       buckets := empty_store |}
  /\ testAWSConfiguration w bucketName
     = {| exited := Some 1;
          trace := by_main [Console (LProbe PRunning);
                            Console LMissingCredentials;
                            Console LMissingCredentialsHint];
          buckets := empty_store |}
  /\ exit_code (main w sched ["upload"; localPath; bucketName; s3Path]) = 1
  /\ exit_code (main w sched ["test"; bucketName]) = 1.
Proof.
  intros Hv Hmissing.
  pose proof (getAWSConfig_none w v Hv Hmissing) as Hnone.
  assert (Hup : uploadDirectory w sched localPath bucketName s3Path
                = {| exited := Some 1;
                     trace := by_main [Console LStarting;
                                       Console LMissingCredentials;
                                       Console LMissingCredentialsHint];
                     buckets := empty_store |})
    by (unfold uploadDirectory; now rewrite Hnone).
  assert (Hte : testAWSConfiguration w bucketName
                = {| exited := Some 1;
                     trace := by_main [Console (LProbe PRunning);
                                       Console LMissingCredentials;
                                       Console LMissingCredentialsHint];
                     buckets := empty_store |})
    by (unfold testAWSConfiguration; now rewrite Hnone).
  split; [exact Hup|]. split; [exact Hte|]. split.
  - change (main w sched ["upload"; localPath; bucketName; s3Path])
      with (uploadDirectory w sched localPath bucketName s3Path).
    now rewrite Hup.
  - change (main w sched ["test"; bucketName]) with (testAWSConfiguration w bucketName).
    now rewrite Hte.
Qed.

Lemma missing_credentials_stop_witness :
  In "AWS_REGION" credential_names
  /\ truthy (env Faults.no_region "AWS_REGION") = false
  /\ exit_code (main Faults.no_region Host.fifo ["upload"; "/x/y"; "bkt"; "photos"]) = 1
  /\ exit_code (main Faults.no_region Host.fifo ["test"; "bkt"]) = 1.
Proof.
  split; [now left|]. split; [reflexivity|].
  pose proof (missing_credentials_stop Faults.no_region Host.fifo "/x/y" "bkt" "photos"
                "AWS_REGION" (or_introl eq_refl) eq_refl) as H.
  destruct H as (_ & _ & H1 & H2). split; [exact H1 | exact H2].
Defined.

(** ** The [test] command ([testAWSConfiguration], lines 31-104) *)

Lemma testAWSConfiguration_by_main w bucketName :
  exists evs, trace (testAWSConfiguration w bucketName) = by_main evs
              /\ filter is_request evs = [] /\ filter is_write evs = [].
Proof.
  unfold testAWSConfiguration.
  destruct (getAWSConfig w) as [cfg|]; cbn [trace].
  - eexists. split; [reflexivity|].
    destruct (headBucket w bucketName) as [u|err]; [split; reflexivity|].
    destruct (code_is err "NoSuchBucket"); [split; reflexivity|].
    destruct (code_is err "Forbidden"); [split; reflexivity|].
    destruct (code_is err "InvalidAccessKeyId"); [split; reflexivity|].
    destruct (code_is err "SignatureDoesNotMatch"); [split; reflexivity|].
    destruct (code_is err "NetworkingError"); split; reflexivity.
  - eexists. split; [reflexivity|]. split; reflexivity.
Qed.

(** X2.  The [test] command only probes the bucket: it never checks or
    uploads an object, never writes a file and leaves the buckets empty.
    With the credentials present it ends with exit code 0, whether the
    probe succeeds or fails. *)
Theorem probe_touches_nothing w sched bucketName :
  let r := testAWSConfiguration w bucketName in
  requests (trace r) = []
  /\ writes (trace r) = []
  /\ (forall i, events_of i (trace r) = [])
  /\ buckets r = empty_store
  /\ exit_code r = match getAWSConfig w with Some _ => 0 | None => 1 end
  /\ exit_code (main w sched ["test"; bucketName])
     = match getAWSConfig w with Some _ => 0 | None => 1 end.
Proof.
  intros r. unfold r.
  destruct (testAWSConfiguration_by_main w bucketName) as (evs & Htr & Hreq & Hwr).
  rewrite Htr, requests_by_main, writes_by_main.
  split; [exact Hreq|]. split; [exact Hwr|]. split; [intros i; apply events_of_by_main|].
  assert (Hexit : exit_code (testAWSConfiguration w bucketName)
                  = match getAWSConfig w with Some _ => 0 | None => 1 end)
    by (unfold testAWSConfiguration; destruct (getAWSConfig w); reflexivity).
  split; [|split; [exact Hexit | exact Hexit]].
  unfold testAWSConfiguration. destruct (getAWSConfig w); reflexivity.
Qed.

(** X3.  When the probe of the bucket fails, the [test] command prints
    the failure header, one line chosen by the code of the error (the
    message of the error for a code it does not know), and the full error.
    The code [NetworkingError] is the exception: its line reads
    [config.region], [config] is out of scope in the [catch] block, and the
    command ends on the [ReferenceError] printed by the script's [.catch],
    without the line about the network and without the full error. *)
Theorem probe_failure_report w bucketName cfg err :
  getAWSConfig w = Some cfg ->
  headBucket w bucketName = Throw err ->
  let tr := trace (testAWSConfiguration w bucketName) in
  let said (ls : list probe_line) := by_main (map (fun l => Console (LProbe l)) ls) in
  (code err = Some "NetworkingError" ->
     tr = said [PRunning; PChecking bucketName; PFailed]
          ++ by_main [Console (LRejected "ReferenceError: config is not defined")])
  /\ (code err <> Some "NetworkingError" ->
      tr = said [PRunning; PChecking bucketName; PFailed;
                 if code_is err "NoSuchBucket" then PNoSuchBucket bucketName
                 else if code_is err "Forbidden" then PForbidden
                 else if code_is err "InvalidAccessKeyId" then PInvalidAccessKeyId
                 else if code_is err "SignatureDoesNotMatch" then PSignatureDoesNotMatch
                 else PUnexpected (message err);
                 PFullDetails err])
  /\ exited (testAWSConfiguration w bucketName) = None.
Proof.
  intros Hcfg Hprobe tr said. unfold tr, said, testAWSConfiguration.
  rewrite Hcfg, Hprobe. cbn [trace exited].
  split; [|split; [|reflexivity]].
  - intros Hc.
    assert (H1 : code_is err "NoSuchBucket" = false)
      by (unfold code_is; rewrite Hc; reflexivity).
    assert (H2 : code_is err "Forbidden" = false)
      by (unfold code_is; rewrite Hc; reflexivity).
    assert (H3 : code_is err "InvalidAccessKeyId" = false)
      by (unfold code_is; rewrite Hc; reflexivity).
    assert (H4 : code_is err "SignatureDoesNotMatch" = false)
      by (unfold code_is; rewrite Hc; reflexivity).
    assert (H5 : code_is err "NetworkingError" = true)
      by (unfold code_is; rewrite Hc; reflexivity).
    rewrite H1, H2, H3, H4, H5. reflexivity.
  - intros Hc.
    assert (H5 : code_is err "NetworkingError" = false).
    { destruct (code_is err "NetworkingError") eqn:H; [|reflexivity].
      apply code_is_spec in H. congruence. }
    rewrite H5.
    destruct (code_is err "NoSuchBucket"); [reflexivity|].
    destruct (code_is err "Forbidden"); [reflexivity|].
    destruct (code_is err "InvalidAccessKeyId"); [reflexivity|].
    destruct (code_is err "SignatureDoesNotMatch"); reflexivity.
Qed.

Lemma probe_failure_report_witness :
  getAWSConfig (Faults.probe_fails "NetworkingError") = Some ("set", "set", "set")
  /\ headBucket (Faults.probe_fails "NetworkingError") "bkt"
     = Throw (Host.s3_error "NetworkingError")
  /\ code (Host.s3_error "NetworkingError") = Some "NetworkingError"
  /\ trace (testAWSConfiguration (Faults.probe_fails "NetworkingError") "bkt")
     = by_main [Console (LProbe PRunning);
                Console (LProbe (PChecking "bkt"));
                Console (LProbe PFailed);
                Console (LRejected "ReferenceError: config is not defined")].
Proof.
  split; [reflexivity|]. split; [reflexivity|]. split; [reflexivity|].
  pose proof (probe_failure_report (Faults.probe_fails "NetworkingError") "bkt"
                ("set", "set", "set") (Host.s3_error "NetworkingError")
                eq_refl eq_refl) as H.
  cbv zeta in H. destruct H as (H & _). exact (H eq_refl).
Defined.

(** ** The command line (lines 237-274) *)

Lemma uploadDirectory_not_usage w sched localPath bucketName s3Path :
  uploadDirectory w sched localPath bucketName s3Path <> usage_error.
Proof.
  unfold uploadDirectory, usage_error.
  destruct (getAWSConfig w); [|discriminate].
  destruct (scan w localPath); [|discriminate].
  destruct (write_reports w (timestamp w) _). discriminate.
Qed.

Lemma testAWSConfiguration_not_usage w bucketName :
  testAWSConfiguration w bucketName <> usage_error.
Proof.
  unfold testAWSConfiguration, usage_error.
  destruct (getAWSConfig w); discriminate.
Qed.

(** X4.  The script prints its usage and exits with code 1, doing nothing
    else, exactly when it is not called as [test <bucket>] or as
    [upload <path> <bucket> <folder>]: with no argument, with another
    command (the match is exact), or with a wrong number of arguments. *)
Theorem usage_exactly_when_invalid w sched args :
  (main w sched args = usage_error <-> valid_invocation args = false)
  /\ exit_code usage_error = 1
  /\ trace usage_error = by_main [Console LUsage].
Proof.
  split; [|split; reflexivity].
  unfold main, valid_invocation.
  destruct args as [|c [|a1 [|a2 [|a3 [|a4 rest]]]]];
    try (split; reflexivity);
    destruct (String.eqb c "test") eqn:Ht;
    destruct (String.eqb c "upload") eqn:Hu;
    try (split; reflexivity);
    try (apply String.eqb_eq in Ht; apply String.eqb_eq in Hu; congruence);
    split; intros H; try discriminate; try reflexivity; exfalso.
  - now apply testAWSConfiguration_not_usage in H.
  - now apply uploadDirectory_not_usage in H.
Qed.

(** ** The scan of the directory (lines 124-128) *)

Lemma filter_files_ok w localPath entries files :
  filter_files w localPath entries = Ok files <->
  Forall (stat_succeeds w localPath) entries
  /\ files = filter (is_regular w localPath) entries.
Proof.
  revert files. induction entries as [|x entries IH]; intros files; simpl.
  - split.
    + intros H. inversion H. split; [constructor | reflexivity].
    + intros [_ ->]. reflexivity.
  - unfold is_regular at 1, stat_succeeds.
    destruct (statSync_isFile w (path_join w localPath x)) as [isFile|err] eqn:Hx.
    + destruct (filter_files w localPath entries) as [kept|err] eqn:Hrest.
      * destruct (IH kept) as [IH1 _]. destruct (IH1 eq_refl) as [Hall Hkept].
        split.
        -- intros H. inversion H; subst. split.
           ++ constructor; [now exists isFile | exact Hall].
           ++ destruct isFile; reflexivity.
        -- intros [_ ->]. rewrite <- Hkept. destruct isFile; reflexivity.
      * split; [discriminate|]. intros [Hall Hfiles]. inversion Hall; subst.
        destruct (IH (filter (is_regular w localPath) entries)) as [_ IH2].
        discriminate IH2. split; [assumption | reflexivity].
    + split; [discriminate|]. intros [Hall _]. inversion Hall as [|? ? [b Hb] _]; subst.
      congruence.
Qed.

Lemma filter_files_throw w localPath before x after err :
  Forall (stat_succeeds w localPath) before ->
  statSync_isFile w (path_join w localPath x) = Throw err ->
  filter_files w localPath (before ++ x :: after) = Throw err.
Proof.
  intros Hbefore Hx. induction Hbefore as [|y before [b Hy] _ IH]; simpl.
  - now rewrite Hx.
  - now rewrite Hy, IH.
Qed.

(** X5.  The scan succeeds exactly when [readdirSync] succeeds and
    [statSync] succeeds on every entry, and then the files to process are
    the entries that are regular files, in the order of the directory
    listing: subdirectories are left out and nothing below them is
    looked at. *)
Theorem scan_keeps_regular_files w localPath files :
  scan w localPath = Ok files <->
  exists entries,
    readdirSync w localPath = Ok entries
    /\ Forall (stat_succeeds w localPath) entries
    /\ files = filter (is_regular w localPath) entries.
Proof.
  unfold scan. destruct (readdirSync w localPath) as [entries|err].
  - rewrite filter_files_ok. split.
    + intros [Hall Hfiles]. now exists entries.
    + intros (entries' & Heq & Hall & Hfiles). inversion Heq; subst. now split.
  - split; [discriminate|]. intros (entries & Heq & _). discriminate.
Qed.

(** X6.  When [statSync] throws on an entry of the directory, the scan
    stops at the first such entry and the run aborts with that error, even
    if the other entries are regular files: no task starts, no request is
    sent, no report is written.  If the code of the error is [ENOENT] (the
    entry vanished, or is a link to nothing), the caller prints that the
    local directory was not found, although it was listed. *)
Theorem first_failing_entry_aborts w sched localPath bucketName s3Path cfg
  before x after err :
  getAWSConfig w = Some cfg ->
  readdirSync w localPath = Ok (before ++ x :: after) ->
  Forall (stat_succeeds w localPath) before ->
  statSync_isFile w (path_join w localPath x) = Throw err ->
  let r := uploadDirectory w sched localPath bucketName s3Path in
  scan w localPath = Throw err
  /\ r = {| exited := None;
            trace := by_main (announced localPath bucketName s3Path
                              ++ Console (LUnexpected (message err))
                                 :: (if code_is err "ENOENT"
                                     then [Console (LDirectoryNotFound localPath)]
                                     else []));
            buckets := empty_store |}
  /\ requests (trace r) = []
  /\ writes (trace r) = []
  /\ (forall i, events_of i (trace r) = [])
  /\ (code err = Some "ENOENT" ->
      In (None, Console (LDirectoryNotFound localPath)) (trace r)).
Proof.
  intros Hcfg Hdir Hbefore Hx r.
  assert (Hscan : scan w localPath = Throw err).
  { unfold scan. rewrite Hdir. now apply filter_files_throw. }
  assert (Hr : r = {| exited := None;
                      trace := by_main (announced localPath bucketName s3Path
                                        ++ catch_block localPath err);
                      buckets := empty_store |})
    by (now apply (uploadDirectory_aborted w sched localPath bucketName s3Path cfg)).
  split; [exact Hscan|]. split; [exact Hr|]. rewrite Hr. cbn [trace].
  unfold catch_block. split; [|split; [|split]].
  - rewrite requests_by_main. now destruct (code_is err "ENOENT").
  - rewrite writes_by_main. now destruct (code_is err "ENOENT").
  - intros i. apply events_of_by_main.
  - intros Hc. apply code_is_spec in Hc. rewrite Hc. simpl. tauto.
Qed.

Lemma first_failing_entry_aborts_witness :
  getAWSConfig Faults.dangling = Some ("set", "set", "set")
  /\ readdirSync Faults.dangling "/x/links" = Ok (["ok.txt"] ++ "ghost" :: ["later.txt"])
  /\ Forall (stat_succeeds Faults.dangling "/x/links") ["ok.txt"]
  /\ statSync_isFile Faults.dangling (path_join Faults.dangling "/x/links" "ghost")
     = Throw (Host.errno "ENOENT" "no such file or directory, stat" "/x/links/ghost")
  /\ requests (trace (uploadDirectory Faults.dangling Host.fifo "/x/links" "bkt" "photos"))
     = []
  /\ writes (trace (uploadDirectory Faults.dangling Host.fifo "/x/links" "bkt" "photos"))
     = [].
Proof.
  assert (Hok : Forall (stat_succeeds Faults.dangling "/x/links") ["ok.txt"]).
  { constructor; [|constructor]. exists true. reflexivity. }
  split; [reflexivity|]. split; [reflexivity|]. split; [exact Hok|].
  split; [reflexivity|].
  pose proof (first_failing_entry_aborts Faults.dangling Host.fifo "/x/links" "bkt"
                "photos" ("set", "set", "set") ["ok.txt"] "ghost" ["later.txt"]
                (Host.errno "ENOENT" "no such file or directory, stat" "/x/links/ghost")
                eq_refl eq_refl Hok eq_refl) as H.
  cbv zeta in H. destruct H as (_ & _ & Hreq & Hwr & _).
  split; [exact Hreq | exact Hwr].
Defined.

(** ** The requests of a run (lines 135-192) *)

Lemma firstn_snoc {A} (l : list A) n x :
  nth_error l n = Some x -> firstn (S n) l = firstn n l ++ [x].
Proof.
  revert n. induction l as [|a l IH]; intros [|n] H; try discriminate.
  - inversion H. reflexivity.
  - simpl in H. change (firstn (S (S n)) (a :: l)) with (a :: firstn (S n) l).
    now rewrite (IH n H).
Qed.

Lemma head_requests_app tr1 tr2 :
  head_requests (tr1 ++ tr2) = head_requests tr1 ++ head_requests tr2.
Proof. unfold head_requests. now rewrite requests_app, filter_app. Qed.

Lemma head_requests_by_task i evs : head_requests (by_task i evs) = filter is_head evs.
Proof.
  unfold head_requests, requests, by_task. rewrite map_map. simpl. rewrite map_id.
  induction evs as [|ev evs IH]; [reflexivity|].
  destruct ev; simpl; rewrite ?IH; reflexivity.
Qed.

Section Requests.

Variable w : world.
Variables localPath bucketName s3Path : string.
Variable files : list string.
Variable limit : nat.

Local Abbreviation step := (step w localPath bucketName s3Path files limit).
Local Abbreviation run := (run w localPath bucketName s3Path files limit).
Local Abbreviation resume := (resume w localPath bucketName s3Path files).

(** The existence check of a file. *)
Local Abbreviation check := (fun f => HeadObject bucketName (s3Key w s3Path f)).

Lemma resume_no_head t s t' s' evs :
  resume t s = (t', s', evs) -> filter is_head evs = [].
Proof.
  destruct t as [i f ph]. unfold_resume. simpl.
  destruct ph as [|body|]; intros Hres.
  - unfold after_headObject, settle, progress, upload_failed in Hres.
    destruct (headObject w bucketName (s3Key w s3Path f)) as [u|err].
    + inversion Hres; subst. reflexivity.
    + destruct (code_is err "NotFound").
      * destruct (readFileSync w (localFilePath w localPath f));
          inversion Hres; subst; reflexivity.
      * inversion Hres; subst. reflexivity.
  - unfold after_upload, settle, progress, upload_failed in Hres.
    destruct (upload w bucketName (s3Key w s3Path f) body);
      inversion Hres; subst; reflexivity.
  - inversion Hres; subst. reflexivity.
Qed.

Lemma step_heads e e' :
  step e e' ->
  head_requests (out e) = map check (firstn (cursor e) files) ->
  head_requests (out e') = map check (firstn (cursor e') files).
Proof.
  intros Hstep IH. destruct Hstep as
    [e f t evs Hpc Hnth Hpf | e Hpc Hnth | e q1 t q2 t' s' evs Hpc Hq Hns Hres
    | e Hpc Hfl | e Hpc Hfl]; cbn [out cursor]; auto.
  - unfold processFile in Hpf. inversion Hpf; subst t evs.
    rewrite head_requests_app, head_requests_by_task, IH, (firstn_snoc _ _ _ Hnth), map_app.
    reflexivity.
  - rewrite head_requests_app, head_requests_by_task, (resume_no_head _ _ _ _ _ Hres).
    now rewrite app_nil_r.
Qed.

(** At every instant the existence checks sent so far are those of the
    files before the cursor, in the order of the list. *)
Lemma run_heads sched n :
  head_requests (out (run sched n))
  = map check (firstn (cursor (run sched n)) files).
Proof.
  induction n as [|n IH]; [reflexivity|]. simpl.
  destruct (pc (run sched n)) eqn:Hpc;
    try (apply (step_heads (run sched n)); [|exact IH];
         apply sched_step_sound; congruence).
  now rewrite sched_step_finished.
Qed.

End Requests.

(** X7.  A run sends one existence check per file to process, for the key
    of that file, in the order of the directory listing, whatever the
    order in which the answers arrive; a file is never checked twice. *)
Theorem one_check_per_file w sched localPath bucketName s3Path cfg files :
  getAWSConfig w = Some cfg ->
  scan w localPath = Ok files ->
  let r := uploadDirectory w sched localPath bucketName s3Path in
  head_requests (trace r)
  = map (fun f => HeadObject bucketName (s3Key w s3Path f)) files
  /\ List.length (head_requests (trace r)) = List.length files
  /\ (forall n,
        let e := run w localPath bucketName s3Path files CONCURRENT_UPLOADS sched n in
        head_requests (out e)
        = map (fun f => HeadObject bucketName (s3Key w s3Path f))
            (firstn (cursor e) files)).
Proof.
  intros Hcfg Hscan r.
  destruct (scanned_run w sched localPath bucketName s3Path cfg files Hcfg Hscan)
    as (_ & _ & _ & _ & _ & Hreq & _).
  fold r in Hreq.
  destruct (run_all_inv w localPath bucketName s3Path files sched) as [Hinv Hpc].
  pose proof (inv_pc _ _ _ _ _ _ _ Hinv) as Hend. rewrite Hpc in Hend.
  destruct Hend as [Hcursor _].
  assert (Hheads : head_requests (trace r)
                   = map (fun f => HeadObject bucketName (s3Key w s3Path f)) files).
  { unfold head_requests. rewrite Hreq.
    change (filter is_head
              (requests (out (run_all w localPath bucketName s3Path files
                                CONCURRENT_UPLOADS sched))))
      with (head_requests (out (run_all w localPath bucketName s3Path files
                                  CONCURRENT_UPLOADS sched))).
    unfold run_all. rewrite run_heads. unfold run_all in Hcursor. rewrite Hcursor.
    unfold totalFiles. now rewrite firstn_all. }
  split; [exact Hheads|]. split; [now rewrite Hheads, length_map|].
  intros n. apply run_heads.
Qed.

Lemma one_check_per_file_witness :
  getAWSConfig Host.demo = Some ("set", "set", "set")
  /\ scan Host.demo "/x/y" = Ok ["a.txt"; "b.txt"; "c.txt"]
  /\ head_requests (trace (uploadDirectory Host.demo Host.shuffled "/x/y" "bkt" "photos"))
     = map (fun f => HeadObject "bkt" (s3Key Host.demo "photos" f))
         ["a.txt"; "b.txt"; "c.txt"].
Proof.
  split; [reflexivity|]. split; [reflexivity|].
  pose proof (one_check_per_file Host.demo Host.shuffled "/x/y" "bkt" "photos"
                ("set", "set", "set") ["a.txt"; "b.txt"; "c.txt"] eq_refl eq_refl) as H.
  cbv zeta in H. destruct H as (H & _). exact H.
Defined.

(** What one complete call of [processFile] sends and reads. *)
Lemma script_attempts w localPath bucketName s3Path fileName :
  let evs := script w localPath bucketName s3Path fileName in
  List.length (filter is_head evs) = 1
  /\ List.length (filter is_read evs) <= 1
  /\ List.length (filter is_upload evs) <= 1
  /\ (forall p, In (ReadFile p) evs -> p = localFilePath w localPath fileName)
  /\ (forall b k body, In (Upload b k body) evs ->
        b = bucketName /\ k = s3Key w s3Path fileName
        /\ readFileSync w (localFilePath w localPath fileName) = Ok body).
Proof.
  unfold script.
  destruct (headObject w bucketName (s3Key w s3Path fileName)) as [u|err].
  - simpl. repeat split; try lia; intros; intuition discriminate.
  - destruct (code_is err "NotFound").
    + destruct (readFileSync w (localFilePath w localPath fileName)) as [body|ue].
      * destruct (upload w bucketName (s3Key w s3Path fileName) body); simpl;
          repeat split; try lia; intros;
          repeat match goal with
                 | H : _ \/ _ |- _ => destruct H
                 | H : False |- _ => destruct H
                 | H : @eq event _ _ |- _ => inversion H; clear H; subst
                 end; reflexivity.
      * simpl. repeat split; try lia; intros;
          repeat match goal with
                 | H : _ \/ _ |- _ => destruct H
                 | H : False |- _ => destruct H
                 | H : @eq event _ _ |- _ => inversion H; clear H; subst
                 end; reflexivity.
    + simpl. repeat split; try lia; intros; intuition discriminate.
Qed.

(** X8.  No step of a task is retried and a file is uploaded as it was
    read: in a whole run the task of a file sends one existence check,
    reads at most once, and that is the local file, and uploads at most
    once, and that is the content just read, to the key of the file in
    the bucket given. *)
Theorem one_attempt_per_file w sched localPath bucketName s3Path cfg files i fileName :
  getAWSConfig w = Some cfg ->
  scan w localPath = Ok files ->
  nth_error files i = Some fileName ->
  let evs := events_of i (trace (uploadDirectory w sched localPath bucketName s3Path)) in
  List.length (filter is_head evs) = 1
  /\ List.length (filter is_read evs) <= 1
  /\ List.length (filter is_upload evs) <= 1
  /\ (forall p, In (ReadFile p) evs -> p = localFilePath w localPath fileName)
  /\ (forall b k body, In (Upload b k body) evs ->
        b = bucketName /\ k = s3Key w s3Path fileName
        /\ readFileSync w (localFilePath w localPath fileName) = Ok body).
Proof.
  intros Hcfg Hscan Hnth evs.
  destruct (scanned_run_task w sched localPath bucketName s3Path cfg files i fileName
              Hcfg Hscan Hnth) as (_ & n & Hev).
  unfold evs. rewrite Hev. clear Hev evs.
  destruct (script_attempts w localPath bucketName s3Path fileName)
    as (Hh & Hr & Hu & Hread & Hup).
  rewrite !filter_app, !length_app.
  cbn [filter is_head is_read is_upload List.length].
  split; [lia|]. split; [lia|]. split; [lia|]. split.
  - intros p Hin. apply in_app_or in Hin. destruct Hin as [Hin|[Heq|[]]];
      [now apply Hread | discriminate].
  - intros b k body Hin. apply in_app_or in Hin. destruct Hin as [Hin|[Heq|[]]];
      [now apply Hup | discriminate].
Qed.

Lemma one_attempt_per_file_witness :
  getAWSConfig Host.demo = Some ("set", "set", "set")
  /\ scan Host.demo "/x/y" = Ok ["a.txt"; "b.txt"; "c.txt"]
  /\ nth_error ["a.txt"; "b.txt"; "c.txt"] 2 = Some "c.txt"
  /\ List.length
       (filter is_upload
          (events_of 2 (trace (uploadDirectory Host.demo Host.shuffled "/x/y" "bkt" "photos"))))
     <= 1.
Proof.
  split; [reflexivity|]. split; [reflexivity|]. split; [reflexivity|].
  pose proof (one_attempt_per_file Host.demo Host.shuffled "/x/y" "bkt" "photos"
                ("set", "set", "set") ["a.txt"; "b.txt"; "c.txt"] 2 "c.txt"
                eq_refl eq_refl eq_refl) as H.
  cbv zeta in H. destruct H as (_ & _ & H & _). exact H.
Defined.

(** ** The buckets and the order of completion (lines 143, 157, 163, 171) *)

Lemma Permutation_filter_same {A} (p : A -> bool) l l' :
  Permutation l l' -> Permutation (filter p l) (filter p l').
Proof.
  induction 1 as [|x l l' _ IH|x y l|l l' l'' _ IH1 _ IH2]; simpl.
  - constructor.
  - destruct (p x); [now constructor | exact IH].
  - destruct (p x), (p y); try apply Permutation_refl. apply perm_swap.
  - now transitivity (filter p l').
Qed.

(** The tasks of a run that got past the scan, in the order in which they
    completed, and the buckets they leave. *)
Lemma completion_order w sched localPath bucketName s3Path cfg files :
  getAWSConfig w = Some cfg ->
  scan w localPath = Ok files ->
  let r := uploadDirectory w sched localPath bucketName s3Path in
  Permutation (finished (trace r)) (seq 0 (List.length files))
  /\ NoDup (finished (trace r))
  /\ buckets r = tally w localPath bucketName s3Path files (finished (trace r)).
Proof.
  intros Hcfg Hscan r.
  destruct (scanned_run w sched localPath bucketName s3Path cfg files Hcfg Hscan)
    as (_ & Hb & _ & Hfin & _).
  fold r in Hb, Hfin. rewrite Hb, Hfin.
  destruct (run_all_inv w localPath bucketName s3Path files sched) as [Hinv Hpc].
  split; [|split].
  - exact (finished_all _ _ _ _ _ _ limit_positive _ Hinv Hpc).
  - exact (inv_nodup _ _ _ _ _ _ _ Hinv).
  - exact (inv_store _ _ _ _ _ _ _ Hinv).
Qed.

(** X9.  The buckets are filled in the order in which the tasks complete,
    not in the order of the directory listing: [duplicatedFiles] lists the
    names of the duplicates and [notUploadedFiles] the failures, each with
    the message of its own file, in completion order, every task having
    completed exactly once. *)
Theorem buckets_in_completion_order w sched localPath bucketName s3Path cfg files :
  getAWSConfig w = Some cfg ->
  scan w localPath = Ok files ->
  let r := uploadDirectory w sched localPath bucketName s3Path in
  let order := finished (trace r) in
  NoDup order
  /\ (forall i, In i order <-> i < List.length files)
  /\ uploadedCount (buckets r)
     = List.length (filter (is_uploaded w localPath bucketName s3Path files) order)
  /\ duplicatedFiles (buckets r)
     = map (name files) (filter (is_duplicate w localPath bucketName s3Path files) order)
  /\ notUploadedFiles (buckets r)
     = map (failure_of w localPath bucketName s3Path files)
         (filter (is_failed w localPath bucketName s3Path files) order)
  /\ processedCount (buckets r) = List.length files.
Proof.
  intros Hcfg Hscan r order.
  destruct (completion_order w sched localPath bucketName s3Path cfg files Hcfg Hscan)
    as (Hperm & Hnd & Hb).
  fold r in Hperm, Hnd, Hb. fold order in Hperm, Hnd, Hb.
  destruct (tally_buckets w localPath bucketName s3Path files order) as (Hu & Hd & Hf).
  split; [exact Hnd|]. split.
  - intros i. split; intros Hi.
    + apply (Permutation_in _ Hperm), in_seq in Hi. lia.
    + apply (Permutation_in _ (Permutation_sym Hperm)), in_seq. lia.
  - rewrite Hb. split; [exact Hu|]. split; [exact Hd|]. split; [exact Hf|].
    rewrite tally_processedCount. apply Permutation_length in Hperm.
    now rewrite length_seq in Hperm.
Qed.

Lemma buckets_in_completion_order_witness :
  getAWSConfig Faults.all_there = Some ("set", "set", "set")
  /\ scan Faults.all_there "/x/y" = Ok ["a.txt"; "b.txt"; "c.txt"]
  /\ finished (trace (uploadDirectory Faults.all_there Host.shuffled "/x/y" "bkt" "photos"))
     = [1; 2; 0]
  /\ duplicatedFiles
       (buckets (uploadDirectory Faults.all_there Host.shuffled "/x/y" "bkt" "photos"))
     = map (name ["a.txt"; "b.txt"; "c.txt"])
         (filter (is_duplicate Faults.all_there "/x/y" "bkt" "photos"
                    ["a.txt"; "b.txt"; "c.txt"])
            (finished
               (trace (uploadDirectory Faults.all_there Host.shuffled "/x/y" "bkt" "photos")))).
Proof.
  split; [reflexivity|]. split; [reflexivity|]. split; [vm_compute; reflexivity|].
  pose proof (buckets_in_completion_order Faults.all_there Host.shuffled "/x/y" "bkt" "photos"
                ("set", "set", "set") ["a.txt"; "b.txt"; "c.txt"] eq_refl eq_refl) as H.
  cbv zeta in H. destruct H as (_ & _ & _ & H & _). exact H.
Defined.

(** X10.  The order in which the requests are answered changes the order
    of the entries of the buckets and nothing else: two runs over the same
    host upload the same number of files, find the same duplicates and the
    same failures up to order, print the same summary, and each task does
    the same in both up to the count in its progress line. *)
Theorem outcome_independent_of_order w sched sched' localPath bucketName s3Path cfg files :
  getAWSConfig w = Some cfg ->
  scan w localPath = Ok files ->
  let r := uploadDirectory w sched localPath bucketName s3Path in
  let r' := uploadDirectory w sched' localPath bucketName s3Path in
  uploadedCount (buckets r) = uploadedCount (buckets r')
  /\ Permutation (duplicatedFiles (buckets r)) (duplicatedFiles (buckets r'))
  /\ Permutation (notUploadedFiles (buckets r)) (notUploadedFiles (buckets r'))
  /\ summary (List.length files) (buckets r) = summary (List.length files) (buckets r')
  /\ (forall i fileName, nth_error files i = Some fileName ->
        removelast (events_of i (trace r)) = removelast (events_of i (trace r')))
  /\ head_requests (trace r) = head_requests (trace r').
Proof.
  intros Hcfg Hscan r r'.
  destruct (completion_order w sched localPath bucketName s3Path cfg files Hcfg Hscan)
    as (Hperm & _ & Hb).
  destruct (completion_order w sched' localPath bucketName s3Path cfg files Hcfg Hscan)
    as (Hperm' & _ & Hb').
  fold r in Hperm, Hb. fold r' in Hperm', Hb'.
  assert (Hpp : Permutation (finished (trace r)) (finished (trace r')))
    by (now rewrite Hperm, Hperm').
  destruct (tally_buckets w localPath bucketName s3Path files (finished (trace r)))
    as (Hu & Hd & Hf).
  destruct (tally_buckets w localPath bucketName s3Path files (finished (trace r')))
    as (Hu' & Hd' & Hf').
  rewrite <- Hb in Hu, Hd, Hf. rewrite <- Hb' in Hu', Hd', Hf'.
  assert (Hcount : uploadedCount (buckets r) = uploadedCount (buckets r')).
  { rewrite Hu, Hu'. apply Permutation_length, Permutation_filter_same, Hpp. }
  assert (Hdups : Permutation (duplicatedFiles (buckets r)) (duplicatedFiles (buckets r'))).
  { rewrite Hd, Hd'. apply Permutation_map, Permutation_filter_same, Hpp. }
  assert (Hfails : Permutation (notUploadedFiles (buckets r)) (notUploadedFiles (buckets r'))).
  { rewrite Hf, Hf'. apply Permutation_map, Permutation_filter_same, Hpp. }
  split; [exact Hcount|]. split; [exact Hdups|]. split; [exact Hfails|]. split; [|split].
  - unfold summary. rewrite Hcount.
    now rewrite (Permutation_length Hdups), (Permutation_length Hfails).
  - intros i fileName Hnth.
    destruct (scanned_run_task w sched localPath bucketName s3Path cfg files i fileName
                Hcfg Hscan Hnth) as (_ & n & Hev).
    destruct (scanned_run_task w sched' localPath bucketName s3Path cfg files i fileName
                Hcfg Hscan Hnth) as (_ & n' & Hev').
    fold r in Hev. fold r' in Hev'. rewrite Hev, Hev'. now rewrite !removelast_last.
  - destruct (scanned_run w sched localPath bucketName s3Path cfg files Hcfg Hscan)
      as (_ & _ & _ & _ & _ & Hreq & _).
    destruct (scanned_run w sched' localPath bucketName s3Path cfg files Hcfg Hscan)
      as (_ & _ & _ & _ & _ & Hreq' & _).
    fold r in Hreq. fold r' in Hreq'. unfold head_requests. rewrite Hreq, Hreq'.
    destruct (run_all_inv w localPath bucketName s3Path files sched) as [Hinv Hpc].
    destruct (run_all_inv w localPath bucketName s3Path files sched') as [Hinv' Hpc'].
    pose proof (inv_pc _ _ _ _ _ _ _ Hinv) as Hend. rewrite Hpc in Hend.
    pose proof (inv_pc _ _ _ _ _ _ _ Hinv') as Hend'. rewrite Hpc' in Hend'.
    pose proof (run_heads w localPath bucketName s3Path files CONCURRENT_UPLOADS sched
                  (turns files)) as Hh.
    pose proof (run_heads w localPath bucketName s3Path files CONCURRENT_UPLOADS sched'
                  (turns files)) as Hh'.
    unfold head_requests in Hh, Hh'. unfold run_all in *.
    rewrite Hh, Hh'. now rewrite (proj1 Hend), (proj1 Hend').
Qed.

Lemma outcome_independent_of_order_witness :
  getAWSConfig Host.demo = Some ("set", "set", "set")
  /\ scan Host.demo "/x/y" = Ok ["a.txt"; "b.txt"; "c.txt"]
  /\ uploadedCount (buckets (uploadDirectory Host.demo Host.fifo "/x/y" "bkt" "photos"))
     = uploadedCount (buckets (uploadDirectory Host.demo Host.shuffled "/x/y" "bkt" "photos")).
Proof.
  split; [reflexivity|]. split; [reflexivity|].
  pose proof (outcome_independent_of_order Host.demo Host.fifo Host.shuffled
                "/x/y" "bkt" "photos" ("set", "set", "set") ["a.txt"; "b.txt"; "c.txt"]
                eq_refl eq_refl) as H.
  cbv zeta in H. destruct H as (H & _). exact H.
Defined.

(** ** The end of the loop (lines 181-192) *)

Lemma reachable_in_bound w localPath bucketName s3Path files limit n e :
  reachable_in w localPath bucketName s3Path files limit n e ->
  n + pending_work files e <= 4 * List.length files + 2.
Proof.
  induction 1 as [|n e e' _ IH Hstep].
  - unfold_pending_work. unfold totalFiles. simpl. lia.
  - apply step_decreases in Hstep. lia.
Qed.

Lemma run_past_the_end w localPath bucketName s3Path files limit sched k :
  run w localPath bucketName s3Path files limit sched (turns files + k)
  = run_all w localPath bucketName s3Path files limit sched.
Proof.
  induction k as [|k IH].
  - now rewrite Nat.add_0_r.
  - rewrite Nat.add_succ_r. simpl. rewrite IH.
    apply sched_step_finished, run_finishes.
Qed.

(** X11.  The batching loop cannot hang and cannot run for ever: as long
    as [uploadDirectory] has not got past its last [await] some step of the
    event loop is possible, no execution takes more than [4 * total + 2]
    steps, whatever the limit and the order of the answers, and nothing
    happens in the loop once it is finished. *)
Theorem event_loop_ends w localPath bucketName s3Path files limit :
  (forall e, pc e <> Finished ->
     exists e', step w localPath bucketName s3Path files limit e e')
  /\ (forall e e', step w localPath bucketName s3Path files limit e e' ->
        pc e <> Finished)
  /\ (forall n e, reachable_in w localPath bucketName s3Path files limit n e ->
        n + pending_work files e <= 4 * List.length files + 2)
  /\ (forall n e, reachable_in w localPath bucketName s3Path files limit n e ->
        n = 4 * List.length files + 2 -> pc e = Finished)
  /\ (forall sched n, 4 * List.length files + 2 <= n ->
        run w localPath bucketName s3Path files limit sched n
        = run_all w localPath bucketName s3Path files limit sched
        /\ pc (run w localPath bucketName s3Path files limit sched n) = Finished).
Proof.
  split; [|split; [|split; [|split]]].
  - intros e Hpc. exists (sched_step w localPath bucketName s3Path files limit 0 e).
    now apply sched_step_sound.
  - intros e e' Hstep. destruct Hstep as
      [e f t evs Hpc Hnth Hpf | e Hpc Hnth | e q1 t q2 t' s' evs Hpc Hq Hns Hres
      | e Hpc Hfl | e Hpc Hfl]; try congruence.
    destruct Hpc; congruence.
  - intros n e. apply reachable_in_bound.
  - intros n e Hreach Hn. apply reachable_in_bound in Hreach.
    unfold_pending_work_in Hreach. destruct (pc e); try lia. reflexivity.
  - intros sched n Hn.
    replace n with (turns files + (n - turns files))
      by (unfold turns, totalFiles; lia).
    rewrite run_past_the_end. split; [reflexivity | apply run_finishes].
Qed.

(** ** A report that cannot be written (lines 203-233) *)

Lemma catch_block_no_write localPath err name content :
  ~ In (WriteFile name content) (catch_block localPath err).
Proof.
  unfold catch_block. destruct (code_is err "ENOENT"); simpl; intuition discriminate.
Qed.

(** A write that throws is the last thing done before the [catch] block. *)
Lemma reported_throw w localPath s name content err :
  In (WriteFile name content) (reported w localPath s) ->
  writeFileSync w name content = Throw err ->
  exists before,
    reported w localPath s = before ++ WriteFile name content :: catch_block localPath err.
Proof.
  intros Hin Hthrow. revert Hin. unfold reported, write_reports, write_report.
  destruct (duplicatedFiles s) as [|d ds]; destruct (notUploadedFiles s) as [|f fs];
    repeat match goal with
           | |- context [writeFileSync w ?a ?b] =>
               let H := fresh "Hw" in destruct (writeFileSync w a b) eqn:H
           end;
    cbn [fst snd app]; intros Hin;
    repeat match goal with
           | H : In _ (_ :: _) |- _ => destruct H as [H|H]
           | H : In _ [] |- _ => destruct H
           | H : In _ (catch_block _ _) |- _ => apply catch_block_no_write in H; destruct H
           | H : WriteFile _ _ = WriteFile _ _ |- _ => inversion H; clear H; subst
           | H : Console _ = WriteFile _ _ |- _ => discriminate H
           end;
    try congruence;
    match goal with
    | H1 : writeFileSync w ?a ?b = Throw ?e1, H2 : writeFileSync w ?a ?b = Throw ?e2 |- _ =>
        assert (e1 = e2) by congruence; subst
    end.
  - exists []. reflexivity.
  - exists []. reflexivity.
  - exists [WriteFile (duplicatedLogFile (timestamp w)) (stringify_names (d :: ds));
            Console (LDuplicateListSaved (duplicatedLogFile (timestamp w)))].
    reflexivity.
  - exists []. reflexivity.
Qed.

(** X12.  When writing a report file throws, nothing is retried and
    nothing more is written: the run ends with that write followed by the
    outer [catch] block, without exiting; in particular, when the list of
    duplicates cannot be written, the list of failures is not attempted. *)
Theorem failed_report_write w sched localPath bucketName s3Path cfg files :
  getAWSConfig w = Some cfg ->
  scan w localPath = Ok files ->
  let r := uploadDirectory w sched localPath bucketName s3Path in
  let dups := WriteFile (duplicatedLogFile (timestamp w))
                (stringify_names (duplicatedFiles (buckets r))) in
  exited r = None
  /\ (forall name content err,
        In (WriteFile name content) (writes (trace r)) ->
        writeFileSync w name content = Throw err ->
        exists before,
          trace r = before ++ by_main (WriteFile name content :: catch_block localPath err))
  /\ (forall err,
        duplicatedFiles (buckets r) <> [] ->
        writeFileSync w (duplicatedLogFile (timestamp w))
          (stringify_names (duplicatedFiles (buckets r))) = Throw err ->
        writes (trace r) = [dups]).
Proof.
  intros Hcfg Hscan r dups.
  destruct (scanned_run w sched localPath bucketName s3Path cfg files Hcfg Hscan)
    as (Hex & Hb & _ & _ & _ & _ & Hw).
  fold r in Hex, Hb, Hw.
  split; [exact Hex|]. split.
  - intros name content err Hin Hthrow. rewrite Hw in Hin.
    apply filter_In in Hin. destruct Hin as [Hin _].
    destruct (reported_throw w localPath _ name content err Hin Hthrow) as [before Hrep].
    unfold r.
    rewrite (uploadDirectory_scanned w sched localPath bucketName s3Path cfg files Hcfg Hscan).
    cbv zeta. cbn [trace]. rewrite Hrep.
    rewrite (app_assoc (summary _ _) before), (by_main_app (_ ++ before)), !app_assoc.
    eexists. reflexivity.
  - intros err Hne Hthrow. rewrite Hw. unfold dups. clear dups. revert Hne Hthrow.
    rewrite Hb. unfold reported, write_reports, write_report.
    destruct (duplicatedFiles _) as [|d ds]; [intros Hne; now destruct Hne|].
    intros _ Hthrow. rewrite Hthrow. cbn [fst snd app filter is_write].
    unfold catch_block. destruct (code_is err "ENOENT"); reflexivity.
Qed.

Lemma failed_report_write_witness :
  getAWSConfig Faults.read_only = Some ("set", "set", "set")
  /\ scan Faults.read_only "/x/y" = Ok ["a.txt"; "b.txt"; "c.txt"]
  /\ duplicatedFiles (buckets (uploadDirectory Faults.read_only Host.fifo "/x/y" "bkt" "photos"))
     = ["b.txt"]
  /\ notUploadedFiles (buckets (uploadDirectory Faults.read_only Host.fifo "/x/y" "bkt" "photos"))
     = [{| file := "c.txt"; error := "AccessDenied" |}]
  /\ writes (trace (uploadDirectory Faults.read_only Host.fifo "/x/y" "bkt" "photos"))
     = [WriteFile (duplicatedLogFile (timestamp Faults.read_only))
          (stringify_names
             (duplicatedFiles
                (buckets (uploadDirectory Faults.read_only Host.fifo "/x/y" "bkt" "photos"))))].
Proof.
  split; [reflexivity|]. split; [reflexivity|]. split; [vm_compute; reflexivity|].
  split; [vm_compute; reflexivity|].
  pose proof (failed_report_write Faults.read_only Host.fifo "/x/y" "bkt" "photos"
                ("set", "set", "set") ["a.txt"; "b.txt"; "c.txt"] eq_refl eq_refl) as H.
  cbv zeta in H. destruct H as (_ & _ & H).
  apply (H (Host.errno "EACCES" "permission denied, open"
              (duplicatedLogFile (timestamp Faults.read_only)))).
  - vm_compute. discriminate.
  - vm_compute. reflexivity.
Defined.

(** ** The report files can be read back (lines 205-208 and 216-219) *)

(** Reading an escaped character gives the character back. *)
Lemma read_escape c rest :
  read_chars (json_escape c +++ rest) = cons_read c (read_chars rest).
Proof.
  destruct c as [[] [] [] [] [] [] [] []]; reflexivity.
Qed.

Lemma read_json_chars s rest :
  read_chars (json_chars s +++ String dquote rest) = Some (s, rest).
Proof.
  induction s as [|c s IH]; [reflexivity|].
  cbn [json_chars]. rewrite append_assoc, read_escape, IH. reflexivity.
Qed.

(** A string literal is delimited by itself: what follows it cannot be
    taken for a part of it. *)
Lemma json_string_delimited s1 s2 rest1 rest2 :
  json_string s1 +++ rest1 = json_string s2 +++ rest2 -> s1 = s2 /\ rest1 = rest2.
Proof.
  unfold json_string. cbn [String.append]. rewrite !append_assoc. cbn [String.append].
  intros H. injection H as H.
  apply (f_equal read_chars) in H. rewrite !read_json_chars in H.
  now inversion H.
Qed.

Lemma append_cancel (p a b : string) : p +++ a = p +++ b -> a = b.
Proof.
  induction p as [|x p IH]; simpl; intros H; [exact H|].
  injection H as H. now apply IH.
Qed.

Lemma json_failure_delimited f1 f2 rest1 rest2 :
  json_failure f1 +++ rest1 = json_failure f2 +++ rest2 -> f1 = f2 /\ rest1 = rest2.
Proof.
  destruct f1 as [n1 e1], f2 as [n2 e2]. unfold json_failure. cbn [file error].
  rewrite !append_assoc. intros H.
  do 5 apply append_cancel in H. apply json_string_delimited in H. destruct H as [-> H].
  do 5 apply append_cancel in H. apply json_string_delimited in H. destruct H as [-> H].
  do 2 apply append_cancel in H. now subst.
Qed.

Section Arrays.

Variable A : Type.
Variable enc : A -> string.
Hypothesis enc_delimited :
  forall a b rest1 rest2, enc a +++ rest1 = enc b +++ rest2 -> a = b /\ rest1 = rest2.

Lemma json_items_inj l1 : forall l2 a b,
  json_items "  " (map enc (a :: l1)) +++ nl +++ "]"
  = json_items "  " (map enc (b :: l2)) +++ nl +++ "]" ->
  a :: l1 = b :: l2.
Proof.
  induction l1 as [|a' l1 IH]; intros [|b' l2] a b H; cbn [map] in H;
    rewrite ?json_items_cons in H; cbn [json_items] in H;
    rewrite !append_assoc in H; apply append_cancel in H;
    apply enc_delimited in H; destruct H as [-> H].
  - reflexivity.
  - discriminate H.
  - discriminate H.
  - do 2 apply append_cancel in H. f_equal. apply (IH l2 a' b'). exact H.
Qed.

Lemma json_array_inj l1 l2 :
  json_array (map enc l1) = json_array (map enc l2) -> l1 = l2.
Proof.
  destruct l1 as [|a l1], l2 as [|b l2]; unfold json_array; cbn [map]; intros H.
  - reflexivity.
  - discriminate H.
  - discriminate H.
  - do 2 apply append_cancel in H. now apply json_items_inj.
Qed.

End Arrays.

(** X13.  The report files lose nothing: a name is read back from its
    JSON literal whatever characters it holds, and two different lists of
    duplicates, or of failures, never give the same file content. *)
Theorem reports_read_back :
  (forall s rest, read_chars (json_chars s +++ String dquote rest) = Some (s, rest))
  /\ (forall names names', stringify_names names = stringify_names names' <-> names = names')
  /\ (forall fs fs', stringify_failures fs = stringify_failures fs' <-> fs = fs').
Proof.
  split; [exact read_json_chars|]. split.
  - intros names names'. split; [|now intros ->].
    apply json_array_inj. exact json_string_delimited.
  - intros fs fs'. split; [|now intros ->].
    apply json_array_inj. exact json_failure_delimited.
Qed.

(** ** A file that cannot be read (lines 147-167) *)

(** X14.  The file is read inside the [try] block of the upload: when the
    remote key is not found and reading the local file throws, no upload
    is sent, the failure is printed as an upload error and recorded in
    [notUploadedFiles] with the message of the read error, and the task
    still prints its progress line. *)
Theorem unreadable_file_is_recorded w sched localPath bucketName s3Path cfg files
  i fileName err uploadError :
  getAWSConfig w = Some cfg ->
  scan w localPath = Ok files ->
  nth_error files i = Some fileName ->
  headObject w bucketName (s3Key w s3Path fileName) = Throw err ->
  code_is err "NotFound" = true ->
  readFileSync w (localFilePath w localPath fileName) = Throw uploadError ->
  let r := uploadDirectory w sched localPath bucketName s3Path in
  (exists n,
     events_of i (trace r)
     = [HeadObject bucketName (s3Key w s3Path fileName);
        ReadFile (localFilePath w localPath fileName);
        Console (LErrorUploading fileName (message uploadError));
        Console (LProgress n (List.length files))])
  /\ filter is_upload (events_of i (trace r)) = []
  /\ In {| file := fileName; error := message uploadError |} (notUploadedFiles (buckets r))
  /\ is_uploaded w localPath bucketName s3Path files i = false
  /\ is_duplicate w localPath bucketName s3Path files i = false.
Proof.
  intros Hcfg Hscan Hnth Hhead Hcode Hread r.
  destruct (scanned_run_task w sched localPath bucketName s3Path cfg files i fileName
              Hcfg Hscan Hnth) as (_ & n & Hev).
  fold r in Hev.
  assert (Hscript : script w localPath bucketName s3Path fileName
                    = [HeadObject bucketName (s3Key w s3Path fileName);
                       ReadFile (localFilePath w localPath fileName);
                       Console (LErrorUploading fileName (message uploadError))]).
  { unfold script. now rewrite Hhead, Hcode, Hread. }
  assert (Hv : verdict_of w localPath bucketName s3Path fileName
               = Failed (message uploadError)).
  { unfold verdict_of. now rewrite Hhead, Hcode, Hread. }
  assert (Hname : name files i = fileName)
    by (unfold name; now rewrite (nth_error_nth _ _ _ Hnth)).
  rewrite Hscript in Hev.
  split; [exists n; exact Hev|]. split; [now rewrite Hev|]. split; [|split].
  - pose proof (verdict_recorded w sched localPath bucketName s3Path cfg files i fileName
                  Hcfg Hscan Hnth) as Hrec.
    cbv zeta in Hrec. rewrite Hv in Hrec. exact Hrec.
  - unfold is_uploaded. now rewrite Hname, Hv.
  - unfold is_duplicate. now rewrite Hname, Hv.
Qed.

Lemma unreadable_file_is_recorded_witness :
  getAWSConfig Faults.unreadable = Some ("set", "set", "set")
  /\ scan Faults.unreadable "/x/y" = Ok ["a.txt"; "b.txt"; "c.txt"]
  /\ nth_error ["a.txt"; "b.txt"; "c.txt"] 0 = Some "a.txt"
  /\ headObject Faults.unreadable "bkt" (s3Key Faults.unreadable "photos" "a.txt")
     = Throw (Host.s3_error "NotFound")
  /\ code_is (Host.s3_error "NotFound") "NotFound" = true
  /\ readFileSync Faults.unreadable (localFilePath Faults.unreadable "/x/y" "a.txt")
     = Throw (Host.errno "EACCES" "permission denied, open" "/x/y/a.txt")
  /\ In {| file := "a.txt";
           error := message (Host.errno "EACCES" "permission denied, open" "/x/y/a.txt") |}
        (notUploadedFiles
           (buckets (uploadDirectory Faults.unreadable Host.shuffled "/x/y" "bkt" "photos"))).
Proof.
  do 6 (split; [reflexivity|]).
  pose proof (unreadable_file_is_recorded Faults.unreadable Host.shuffled "/x/y" "bkt" "photos"
                ("set", "set", "set") ["a.txt"; "b.txt"; "c.txt"] 0 "a.txt"
                (Host.s3_error "NotFound")
                (Host.errno "EACCES" "permission denied, open" "/x/y/a.txt")
                eq_refl eq_refl eq_refl eq_refl eq_refl eq_refl) as H.
  cbv zeta in H. destruct H as (_ & _ & H & _). exact H.
Defined.
